(** * gargs: a parallel command executor

    A shallow embedding of the two Go source files of the repository,
    [process/process.go] (running one command, capturing its output,
    retrying, the worker pool and the ordered drain) and [main.go]
    (option handling, the record scanner and the output drain), followed by
    the properties of the specification that were checked against them.

    Conventions.  Go [int] values are [Z].  Byte slices are [list byte],
    strings are [string].  A nil pointer or nil error is [None].  The file
    system, the clock and the behaviour of child processes are explicit
    state or explicit oracles.  Goroutines and channels are modelled by an
    interleaving step relation, one constructor per blocking operation. *)

From Stdlib Require Import ZArith String List.
From Stdlib.Strings Require Import Byte Ascii.
From stdpp Require Import base list gmap strings pretty.

Open Scope Z_scope.

(** ** process/process.go: one command *)
Module Process.

(** [syscall.WaitStatus] is a 32-bit word.  The two functions below are the
    ones of Go's [syscall] package on Linux, which [ExitCode] calls: a child
    that did not exit by itself (it was killed by a signal) has exit
    status [-1]. *)
Definition WaitStatus := Z.

Definition Exited (w : WaitStatus) : bool := Z.land w 127 =? 0.

Definition ExitStatus (w : WaitStatus) : Z :=
  if Exited w then Z.land (Z.shiftr w 8) 255 else -1.

(** Go [error] values.  [ExitError sys] is an [*exec.ExitError]; [sys] is
    [Some st] when its [Sys()] is a [syscall.WaitStatus].  [EOF],
    [ErrBufferFull], [ErrNegativeCount] and [ErrClosed] are the sentinel
    values of [io], [bufio] and [os] the code compares with or receives. *)
Inductive error :=
| ExitError (sys : option WaitStatus)
| EOF
| ErrBufferFull
| ErrNegativeCount
| ErrClosed
| OtherError (msg : string).

(** [BufferSize], [WaitingMultiplier] (package variables, with their initial
    values) and [UnknownExit]. *)
Definition BufferSize : Z := 1048576.
Definition WaitingMultiplier : Z := 4.
Definition UnknownExit : Z := 1.

(** An [*os.File]: its name and its descriptor. *)
Record File := { Name : string; fd : nat }.

(** The part of the file system the package touches: the files on disk with
    their contents, the open descriptors and the next free descriptor. *)
Record FS := {
  disk : gmap string (list byte);
  open_fds : gset nat;
  next_fd : nat }.

Definition empty_FS : FS := {| disk := ∅; open_fds := ∅; next_fd := 3%nat |}.

(** [Close] of an [os.File]: closing twice is an error, not a crash. *)
Definition File_Close (f : File) (s : FS) : option error * FS :=
  if bool_decide (fd f ∈ open_fds s)
  then (None, {| disk := disk s; open_fds := open_fds s ∖ {[ fd f ]};
                 next_fd := next_fd s |})
  else (Some ErrClosed, s).

(** [os.Remove]. *)
Definition os_Remove (name : string) (s : FS) : option error * FS :=
  match disk s !! name with
  | Some _ => (None, {| disk := delete name (disk s); open_fds := open_fds s;
                        next_fd := next_fd s |})
  | None => (Some (OtherError "remove: no such file or directory"), s)
  end.

(** [ioutil.TempFile] once the system has chosen the name. *)
Definition create_temp (name : string) (s : FS) : File * FS :=
  ({| Name := name; fd := next_fd s |},
   {| disk := <[name := []]> (disk s);
      open_fds := {[ next_fd s ]} ∪ open_fds s;
      next_fd := S (next_fd s) |}).

Definition write_file (f : File) (data : list byte) (s : FS) : FS :=
  {| disk := <[Name f := data]> (disk s); open_fds := open_fds s;
     next_fd := next_fd s |}.

(** What a [*bufio.Reader] of a Command reads from: a byte slice held in
    memory ([bytes.NewReader(res)]) or the rewound temp file. *)
Inductive bufio_Reader :=
| BytesReader (data : list byte)
| FileReader (f : File).

(** [type Command struct].  The embedded [*bufio.Reader] is the field
    [Reader]; [None] is the nil reader. *)
Record Command := {
  Reader : option bufio_Reader;
  tmp : option File;
  Err : option error;
  CmdStr : string;
  Duration : Z }.

(** [func (c *Command) Close() error] *)
Definition Close (c : Command) (s : FS) : option error * FS :=
  match tmp c with
  | None => (None, s)
  | Some f => File_Close f s
  end.

(** [func (c *Command) ExitCode() int] *)
Definition ExitCode (c : Command) : Z :=
  match Err c with
  | None => 0
  | Some (ExitError (Some st)) => ExitStatus st
  | Some _ => UnknownExit
  end.

(** [func cleanup(c *Command)].  [c.tmp.Name()] dereferences [c.tmp]: with a
    nil [tmp] the call panics, which is the result [None]. *)
Definition cleanup (c : Command) (s : FS) : option FS :=
  match tmp c with
  | None => None
  | Some f => let s1 := snd (File_Close f s) in
              Some (snd (os_Remove (Name f) s1))
  end.

(** [func (c *Command) Cleanup()] *)
Definition Cleanup (c : Command) (s : FS) : option FS :=
  match tmp c with
  | Some _ => let s1 := snd (Close c s) in cleanup c s1
  | None => Some s
  end.

(** [func newCommand].  The finalizer set when [tmp != nil] runs [cleanup]
    at some later collection and is not part of the returned value. *)
Definition newCommand (rdr : option bufio_Reader) (tmp : option File)
  (cmd : string) (err : option error) : Command :=
  {| Reader := rdr; tmp := tmp; Err := err; CmdStr := cmd; Duration := 0 |}.

(** The bytes a consumer gets by reading a Command to its end
    ([io.Copy(stdout, p)]): [None] for the nil reader (a nil dereference),
    [Some (inl e)] for a failed read. *)
Definition read_all (c : Command) (s : FS) : option (error + list byte) :=
  match Reader c with
  | None => None
  | Some (BytesReader data) => Some (inr data)
  | Some (FileReader f) =>
      if bool_decide (fd f ∈ open_fds s)
      then match disk s !! Name f with
           | Some data => Some (inr data)
           | None => Some (inl (OtherError "read: file removed"))
           end
      else Some (inl ErrClosed)
  end.

(** *** The buffered reader over the child's stdout *)

(** A stream as a reader delivers it: the successive non-empty chunks that
    [Read] returns, then the error that ends it ([EOF] normally). *)
Record Stream := { chunks : list (list byte); ending : error }.

(** The loop of [Peek(n)] of a [bufio.Reader] on a buffer of [size] bytes:
    [fill] until [n] bytes are buffered, the buffer is full, or the reader
    reported an error.  The result is the buffered bytes, what is left of
    the stream, and whether [b.err] was set. *)
Fixpoint peek_fill (n size : nat) (buf : list byte) (cs : list (list byte))
  : list byte * list (list byte) * bool :=
  if ((length buf <? n) && (length buf <? size))%nat
  then match cs with
       | [] => (buf, [], true)
       | c :: rest =>
           let free := (size - length buf)%nat in
           if (length c <=? free)%nat
           then peek_fill n size (buf ++ c) rest
           else (buf ++ take free c, drop free c :: rest, false)
       end
  else (buf, cs, false).

(** [bufio.NewReaderSize(opipe, BufferSize)] followed by
    [bpipe.Peek(BufferSize)]: the reader's buffer has
    [max BufferSize 16] bytes.  Returns the peeked slice, the error, and
    the bytes still to come (buffered or not) for a later copy. *)
Definition Peek (bufsize : Z) (st : Stream)
  : list byte * option error * list (list byte) :=
  if bufsize <? 0 then ([], Some ErrNegativeCount, chunks st)
  else
    let n := Z.to_nat bufsize in
    let size := Z.to_nat (Z.max bufsize 16) in
    let '(buf, rest, failed) := peek_fill n size [] (chunks st) in
    if (length buf <? n)%nat
    then (buf, Some (if failed then ending st else ErrBufferFull), buf :: rest)
    else (take n buf, None, buf :: rest).

(** *** Running a command *)

(** Everything the outside world decides about one attempt: whether the
    pipe and the start succeed, what arrives on [opipe] (the child's stdout,
    or the callback's output when there is a callback), what [Wait]
    returns, what the callback returns, what the temp file is called and
    whether writing and rewinding it work, and how long the attempt took. *)
Record Child := {
  pipe_err : option error;
  start_err : option error;
  output : Stream;
  wait_err : option error;
  callback_err : option error;
  tmp_file : error + string;
  write_err : option error;
  seek_err : option error;
  elapsed : Z }.

(** An attempt whose plumbing works: the pipe, the start, the stream, the
    temp file, the copy and the rewind all succeed.  What is left open is
    what the child writes, how it exits and what the callback returns. *)
Definition io_ok (k : Child) : Prop :=
  pipe_err k = None /\ start_err k = None /\ ending (output k) = EOF /\
  (exists name, tmp_file k = inr name) /\
  write_err k = None /\ seek_err k = None.

(** The child's whole output. *)
Definition stdout_of (k : Child) : list byte := concat (chunks (output k)).


(** The state threaded through executions: the file system, the clock and
    the command strings handed to the shell so far, one per attempt. *)
Record World := { wfs : FS; now : Z; attempts : list string }.

(** [type Options struct], without [Remotes]: no remote host is
    configured, [getHost] returns nil and every command runs in a local
    shell.  [CallBack] says whether a callback is given; what it returns is
    part of the [Child]. *)
Record Options := { CallBack : bool; Ordered : bool; Retries : Z }.

Section Run.

(** The package variable [BufferSize] at the time of the run, and the
    behaviour of the [n]-th attempt overall, for its command and
    environment. *)
Variable bufsize : Z.
Variable child : nat -> string -> list string -> Child.

(** [err = cmd.Wait()], then the callback's error when [Wait] succeeded. *)
Definition wait_then_callback (k : Child) (callback : bool) : option error :=
  match wait_err k with
  | Some e => Some e
  | None => if callback then callback_err k else None
  end.

(** [func oneRun], with [cfg == nil]. *)
Definition oneRun (command : string) (callback : bool) (env : list string)
  (w : World) : Command * World :=
  let k := child (length (attempts w)) command env in
  let w1 := {| wfs := wfs w; now := now w + elapsed k;
               attempts := attempts w ++ [command] |} in
  match pipe_err k with
  | Some e => (newCommand None None command (Some e), w1)
  | None =>
  match start_err k with
  | Some e => (newCommand None None command (Some e), w1)
  | None =>
  let '(res, perr, pending) := Peek bufsize (output k) in
  match perr with
  | Some ErrBufferFull | Some EOF =>
      (* less than BufferSize bytes in output *)
      (newCommand (Some (BytesReader res)) None command
         (wait_then_callback k callback), w1)
  | Some e => (newCommand None None command (Some e), w1)
  | None =>
      (* more than BufferSize bytes in output: temp file *)
      match tmp_file k with
      | inl e => (newCommand (Some (BytesReader res)) None command (Some e), w1)
      | inr name =>
          let '(f, s1) := create_temp name (wfs w) in
          let copy_err :=
            match ending (output k) with
            | EOF => write_err k
            | e => Some e
            end in
          let s2 := write_file f (concat pending) s1 in
          let w2 := {| wfs := s2; now := now w1; attempts := attempts w1 |} in
          match copy_err with
          | Some e =>
              (newCommand (Some (BytesReader res)) (Some f) command (Some e), w2)
          | None =>
              let err :=
                match seek_err k with
                | Some e => Some e
                | None => wait_then_callback k callback
                end in
              (newCommand (Some (FileReader f)) (Some f) command err, w2)
          end
      end
  end
  end
  end.

(** The loop [for retries > 0 && c.ExitCode() != 0]; [fuel] is the value of
    [retries], which goes down by one at each turn. *)
Fixpoint retry_loop (fuel : nat) (command : string) (callback : bool)
  (env : list string) (c : Command) (w : World) : Command * World :=
  match fuel with
  | O => (c, w)
  | S fuel' =>
      if ExitCode c =? 0 then (c, w)
      else let '(c', w') := oneRun command callback env w in
           retry_loop fuel' command callback env c' w'
  end.

Definition set_Duration (c : Command) (d : Z) : Command :=
  {| Reader := Reader c; tmp := tmp c; Err := Err c; CmdStr := CmdStr c;
     Duration := d |}.

(** [func Run].  [opts] is [None] for a nil pointer. *)
Definition Run (command : string) (opts : option Options) (env : list string)
  (w : World) : Command * World :=
  let t := now w in
  let callback := match opts with Some o => CallBack o | None => false end in
  let retries := match opts with Some o => Retries o | None => 0 end in
  let '(c, w1) := oneRun command callback env w in
  let '(c', w2) := retry_loop (Z.to_nat retries) command callback env c w1 in
  (set_Duration c' (now w2 - t), w2).

(** The result of the [j]-th attempt of a command and the world after it,
    when the attempts are made one after the other from [w]. *)
Fixpoint attempt (j : nat) (command : string) (callback : bool)
  (env : list string) (w : World) : Command * World :=
  match j with
  | O => oneRun command callback env w
  | S j' => oneRun command callback env
              (snd (attempt j' command callback env w))
  end.

End Run.

End Process.

(** ** process/process.go: the worker pool *)
Module Pool.
Import Process.

(** [type istring struct]: a command, the channel its result goes to (nil
    in unordered mode) and its index.  A channel made by [enumerate] is
    named by a number. *)
Record istring := { cmd : string; ch : option nat; i : nat }.

(** Where the goroutine of [enumerate] is. *)
Inductive Enumerate :=
| Ranging (i : nat)
| Queueing (i : nat) (c : string) (cmdch : nat)
| Sending (x : istring)
| Closing
| Finished.

(** Where a worker of [oRunner] is: receiving from [icommands], inside
    [Run], blocked in [command.ch <- cmd], or back from its loop. *)
Inductive OWorker :=
| OReceiving
| ORunning (x : istring)
| OSending (x : istring) (r : Command)
| OReturned.

(** Where the last goroutine of [oRunner] is: receiving from [istdout],
    evaluating [<-ch] on entering the select, choosing a case of the
    select, or done after [close(stdout)]. *)
Inductive ODrain :=
| DRanging
| DReceiving (c : nat)
| DSelecting (r : Command)
| DClosed.

(** The state of an ordered run: what is left in [commands], the three
    kinds of goroutines, the buffer of [istdout], the buffer of [stdout],
    whether [cancel] is closed, and the results the caller has received
    from the returned channel, in order. *)
Record OState := OS {
  os_commands : list string;
  os_enumerate : Enumerate;
  os_istdout : list nat;
  os_workers : list OWorker;
  os_drain : ODrain;
  os_stdout : list Command;
  os_cancel : bool;
  os_received : list Command }.

(** Where a worker of [Runner] is in unordered mode. *)
Inductive UWorker :=
| UReceiving
| URunning (x : istring)
| USelecting (r : Command)
| UReturned.

(** What a step of an unordered run does, as far as an observer of the
    pool can tell. *)
Inductive Event :=
| Quiet
| Started (w : nat) (x : istring)
| CancelFired
| CancelSeen (w : nat)
| Panicked.

(** The state of an unordered run; [us_closer] says whether the goroutine
    [wg.Wait(); close(stdout)] is done, [us_closed] whether [stdout] is
    closed, [us_panicked] whether the program has panicked. *)
Record UState := US {
  us_commands : list string;
  us_enumerate : Enumerate;
  us_workers : list UWorker;
  us_closer : bool;
  us_stdout : list Command;
  us_closed : bool;
  us_cancel : bool;
  us_received : list Command;
  us_panicked : bool }.

Section Steps.

(** [runtime.GOMAXPROCS(0)], the package variable [WaitingMultiplier], and
    the result of [Run(cmd.string, opts, "PROCESS_I=i")], taken to depend
    on the command and its index only. *)
Variable P : nat.
Variable waiting : Z.
Variable exec : string -> nat -> Command.

(** [make(chan chan *Command, WaitingMultiplier*runtime.GOMAXPROCS(0))] and
    [make(chan *Command, runtime.GOMAXPROCS(0))]. *)
Definition istdout_cap : Z := waiting * Z.of_nat P.
Definition stdout_cap : nat := P.

(** One step of [oRunner] with its goroutines: [enumerate] with a non-nil
    [istdout], the [P] workers calling [oRun], the goroutine forwarding
    from [istdout] to [stdout], and the caller, who receives from [stdout]
    and may close [cancel]. *)
Inductive ostep : OState -> OState -> Prop :=
| o_range n c cs q ws d so cn rc :
    (* enumerate: c := <-commands; cmdch = make(chan *Command) *)
    ostep (OS (c :: cs) (Ranging n) q ws d so cn rc)
          (OS cs (Queueing n c n) q ws d so cn rc)
| o_queue n c k cs q ws d so cn rc :
    (* enumerate: istdout <- cmdch, into the buffer *)
    Z.of_nat (length q) < istdout_cap ->
    ostep (OS cs (Queueing n c k) q ws d so cn rc)
          (OS cs (Sending {| cmd := c; ch := Some k; i := n |}) (q ++ [k])
              ws d so cn rc)
| o_handoff n c k cs ws so cn rc :
    (* enumerate: istdout <- cmdch, to the receiver waiting on the empty
       channel *)
    ostep (OS cs (Queueing n c k) [] ws DRanging so cn rc)
          (OS cs (Sending {| cmd := c; ch := Some k; i := n |}) []
              ws (DReceiving k) so cn rc)
| o_dispatch x cs q ws1 ws2 d so cn rc :
    (* enumerate: ch <- istring{c, cmdch, i}; i++, received by a worker *)
    ostep (OS cs (Sending x) q (ws1 ++ OReceiving :: ws2) d so cn rc)
          (OS cs (Ranging (S (i x))) q (ws1 ++ ORunning x :: ws2) d so cn rc)
| o_close_ch n q ws d so cn rc :
    (* enumerate: commands is closed and empty, close(ch) *)
    ostep (OS [] (Ranging n) q ws d so cn rc)
          (OS [] Closing q ws d so cn rc)
| o_close_istdout cs q ws d so cn rc :
    (* enumerate: close(istdout) *)
    ostep (OS cs Closing q ws d so cn rc)
          (OS cs Finished q ws d so cn rc)
| o_run x cs e q ws1 ws2 d so cn rc :
    (* oRun: cmd := Run(command.string, opts, env...) returns *)
    ostep (OS cs e q (ws1 ++ ORunning x :: ws2) d so cn rc)
          (OS cs e q (ws1 ++ OSending x (exec (cmd x) (i x)) :: ws2)
              d so cn rc)
| o_result x r k cs e q ws1 ws2 so cn rc :
    (* oRun: command.ch <- cmd meets the <-ch of the select;
       close(command.ch) *)
    ch x = Some k ->
    ostep (OS cs e q (ws1 ++ OSending x r :: ws2) (DReceiving k) so cn rc)
          (OS cs e q (ws1 ++ OReceiving :: ws2) (DSelecting r) so cn rc)
| o_return cs e q ws1 ws2 d so cn rc :
    (* worker: icommands is closed, the loop ends *)
    e = Closing \/ e = Finished ->
    ostep (OS cs e q (ws1 ++ OReceiving :: ws2) d so cn rc)
          (OS cs e q (ws1 ++ OReturned :: ws2) d so cn rc)
| o_next k cs e q ws so cn rc :
    (* last goroutine: ch := <-istdout *)
    ostep (OS cs e (k :: q) ws DRanging so cn rc)
          (OS cs e q ws (DReceiving k) so cn rc)
| o_forward r cs e q ws so cn rc :
    (* last goroutine: the select takes stdout <- r *)
    (length so < stdout_cap)%nat ->
    ostep (OS cs e q ws (DSelecting r) so cn rc)
          (OS cs e q ws DRanging (so ++ [r]) cn rc)
| o_drop r cs e q ws so rc :
    (* last goroutine: the select takes <-cancel; break leaves the select *)
    ostep (OS cs e q ws (DSelecting r) so true rc)
          (OS cs e q ws DRanging so true rc)
| o_close_stdout cs ws so cn rc :
    (* last goroutine: istdout is closed and empty, close(stdout) *)
    ostep (OS cs Finished [] ws DRanging so cn rc)
          (OS cs Finished [] ws DClosed so cn rc)
| o_receive r cs e q ws d so cn rc :
    (* caller: receives from the returned channel *)
    ostep (OS cs e q ws d (r :: so) cn rc)
          (OS cs e q ws d so cn (rc ++ [r]))
| o_cancel cs e q ws d so cn rc :
    (* caller: closes cancel *)
    ostep (OS cs e q ws d so cn rc)
          (OS cs e q ws d so true rc).

(** [oRunner(commands, cancel, opts)] just after it returned. *)
Definition oRunner (commands : list string) : OState :=
  OS commands (Ranging 0) [] (repeat OReceiving P) DRanging [] false [].

(** One step of [Runner] in unordered mode with its goroutines:
    [enumerate] with a nil [istdout], the [P] workers, the goroutine that
    closes [stdout] when all workers are done, and the caller. *)
Inductive ustep : UState -> Event -> UState -> Prop :=
| u_range n c cs ws cl so sc cn rc :
    (* enumerate: c := <-commands, with a nil cmdch *)
    ustep (US (c :: cs) (Ranging n) ws cl so sc cn rc false) Quiet
          (US cs (Sending {| cmd := c; ch := None; i := n |})
              ws cl so sc cn rc false)
| u_dispatch x cs ws1 ws2 cl so sc cn rc :
    (* enumerate: ch <- istring{c, cmdch, i}; i++, received by a worker,
       which calls Run *)
    ustep (US cs (Sending x) (ws1 ++ UReceiving :: ws2) cl so sc cn rc false)
          (Started (length ws1) x)
          (US cs (Ranging (S (i x))) (ws1 ++ URunning x :: ws2)
              cl so sc cn rc false)
| u_close_ch n ws cl so sc cn rc :
    (* enumerate: commands is closed and empty, close(ch) *)
    ustep (US [] (Ranging n) ws cl so sc cn rc false) Quiet
          (US [] Finished ws cl so sc cn rc false)
| u_run x cs e ws1 ws2 cl so sc cn rc :
    (* worker: Run returns, the select is entered with its result *)
    ustep (US cs e (ws1 ++ URunning x :: ws2) cl so sc cn rc false) Quiet
          (US cs e (ws1 ++ USelecting (exec (cmd x) (i x)) :: ws2)
              cl so sc cn rc false)
| u_send r cs e ws1 ws2 cl so cn rc :
    (* worker: the select takes stdout <- r *)
    (length so < stdout_cap)%nat ->
    ustep (US cs e (ws1 ++ USelecting r :: ws2) cl so false cn rc false) Quiet
          (US cs e (ws1 ++ UReceiving :: ws2) cl (so ++ [r]) false cn rc false)
| u_send_closed r cs e ws1 ws2 cl so cn rc :
    (* worker: the select takes stdout <- r, a send on a closed channel *)
    ustep (US cs e (ws1 ++ USelecting r :: ws2) cl so true cn rc false)
          Panicked
          (US cs e (ws1 ++ USelecting r :: ws2) cl so true cn rc true)
| u_cancelled r cs e ws1 ws2 cl so rc :
    (* worker: the select takes <-cancel, close(stdout); break leaves the
       select and the loop goes on *)
    ustep (US cs e (ws1 ++ USelecting r :: ws2) cl so false true rc false)
          (CancelSeen (length ws1))
          (US cs e (ws1 ++ UReceiving :: ws2) cl so true true rc false)
| u_cancelled_closed r cs e ws1 ws2 cl so rc :
    (* worker: the select takes <-cancel, close of a closed channel *)
    ustep (US cs e (ws1 ++ USelecting r :: ws2) cl so true true rc false)
          Panicked
          (US cs e (ws1 ++ USelecting r :: ws2) cl so true true rc true)
| u_return cs ws1 ws2 cl so sc cn rc :
    (* worker: icommands is closed, the loop ends, wg.Done() *)
    ustep (US cs Finished (ws1 ++ UReceiving :: ws2) cl so sc cn rc false)
          Quiet
          (US cs Finished (ws1 ++ UReturned :: ws2) cl so sc cn rc false)
| u_wait_close cs e ws so cn rc :
    (* closer: wg.Wait() returns; close(stdout) *)
    Forall (fun w => w = UReturned) ws ->
    ustep (US cs e ws false so false cn rc false) Quiet
          (US cs e ws true so true cn rc false)
| u_wait_close_closed cs e ws so cn rc :
    (* closer: wg.Wait() returns; close of a closed channel *)
    Forall (fun w => w = UReturned) ws ->
    ustep (US cs e ws false so true cn rc false) Panicked
          (US cs e ws false so true cn rc true)
| u_receive r cs e ws cl so sc cn rc :
    (* caller: receives from the returned channel *)
    ustep (US cs e ws cl (r :: so) sc cn rc false) Quiet
          (US cs e ws cl so sc cn (rc ++ [r]) false)
| u_cancel cs e ws cl so sc cn rc :
    (* caller: closes cancel *)
    ustep (US cs e ws cl so sc cn rc false) CancelFired
          (US cs e ws cl so sc true rc false).

(** [Runner(commands, cancel, opts)] with [opts.Ordered] false, just after
    it returned. *)
Definition Runner (commands : list string) : UState :=
  US commands (Ranging 0) (repeat UReceiving P) false [] false false []
     false.

(** Runs with the events of their steps. *)
Inductive urun : UState -> list Event -> UState -> Prop :=
| urun_nil s : urun s [] s
| urun_cons s1 ev s2 evs s3 :
    ustep s1 ev s2 -> urun s2 evs s3 -> urun s1 (ev :: evs) s3.

(** The results of the commands in the order [enumerate] emits them. *)
Definition expected (commands : list string) : list Command :=
  imap (fun i c => exec c i) commands.


(** The tickets of the results that are ready while the drain waits for
    another one: the workers blocked in [command.ch <- cmd] on a channel
    the drain is not receiving from. *)
Definition parked (d : ODrain) (w : OWorker) : option nat :=
  match w with
  | OSending x _ =>
      match d with
      | DReceiving k => if decide (ch x = Some k) then None else Some (i x)
      | _ => Some (i x)
      end
  | _ => None
  end.

End Steps.

(** *** What holds in every state of an ordered run *)
Section OrderedInvariant.
Variable P : nat.
Variable waiting : Z.
Variable exec : string -> nat -> Command.
Variable commands : list string.

(** An item that [enumerate] made: its channel is the one made for its
    index, and its command is the one at that index. *)
Definition item_ok (x : istring) : Prop :=
  ch x = Some (i x) /\ commands !! i x = Some (cmd x).

(** How many channels [enumerate] has put on [istdout] so far. *)
Definition pushed (e : Enumerate) : nat :=
  match e with
  | Ranging i | Queueing i _ _ => i
  | Sending x => S (i x)
  | Closing | Finished => length commands
  end.

(** [enumerate] is consistent with what is left in [commands]. *)
Definition enumerate_ok (cs : list string) (e : Enumerate) : Prop :=
  match e with
  | Ranging i => cs = drop i commands /\ (i <= length commands)%nat
  | Queueing i c k =>
      k = i /\ commands !! i = Some c /\ cs = drop (S i) commands
  | Sending x => item_ok x /\ cs = drop (S (i x)) commands
  | Closing | Finished => cs = []
  end.

(** The channels the drain still has to serve, in order: the one it is
    receiving from, then the queue. *)
Definition tickets (d : ODrain) (q : list nat) : list nat :=
  match d with DReceiving k => k :: q | _ => q end.

(** The result the drain holds while it chooses a case of the select. *)
Definition held (d : ODrain) : list Command :=
  match d with DSelecting r => [r] | _ => [] end.

(** A worker has an item of [enumerate], and the result it sends is the
    result of that item. *)
Definition worker_ok (w : OWorker) : Prop :=
  match w with
  | ORunning x => item_ok x
  | OSending x r => item_ok x /\ r = exec (cmd x) (i x)
  | _ => True
  end.

(** The index of the item a worker is busy with. *)
Definition ticket_of (w : OWorker) : option nat :=
  match w with
  | ORunning x | OSending x _ => Some (i x)
  | _ => None
  end.

(** The indices of the items in flight: the one being dispatched and
    those of the busy workers. *)
Definition active (e : Enumerate) (ws : list OWorker) : list nat :=
  match e with Sending x => [i x] | _ => [] end ++ omap ticket_of ws.

(** The invariant: the items in flight are distinct and their channels are
    among those the drain still has to serve; these channels are
    consecutive, from the number [released] already served; what was
    forwarded is, in order, among the results of the first [released]
    commands, and is exactly these results while [cancel] is open. *)
Definition oinv (s : OState) : Prop :=
  let 'OS cs e q ws d so cn rc := s in
  let t := tickets d q in
  enumerate_ok cs e /\
  Forall worker_ok ws /\
  NoDup (active e ws) /\ active e ws ⊆ t /\
  (d = DClosed -> e = Finished /\ q = []) /\
  length ws = P /\
  (q = [] \/ Z.of_nat (length q) <= istdout_cap P waiting) /\
  (length so <= P)%nat /\
  exists released : nat,
    (released + length t)%nat = pushed e /\
    t = seq released (length t) /\
    rc ++ so ++ held d `sublist_of` take released (expected exec commands) /\
    (cn = false ->
     rc ++ so ++ held d = take released (expected exec commands)).

End OrderedInvariant.

(** The states of the run that handles one command after the other with
    the first worker, and its last state. *)
Definition between (P : nat) (exec : string -> nat -> Command)
  (commands : list string) (k : nat) : OState :=
  OS (drop k commands) (Ranging k) [] (repeat OReceiving P) DRanging [] false
     (take k (expected exec commands)).

Definition finished (P : nat) (exec : string -> nat -> Command)
  (commands : list string) : OState :=
  OS [] Finished [] (repeat OReceiving P) DClosed [] false
     (expected exec commands).

End Pool.

(** ** main.go *)
Module Main.

(** [type Params struct] *)
Record Params := {
  Procs : Z;
  Nlines : Z;
  Retry : Z;
  Ordered : bool;
  Sep : string;
  Verbose : bool;
  StopOnError : bool;
  DryRun : bool;
  Log : string;
  Command : string }.

(** What the user wrote on the command line: an option is [None] when it
    was not given. *)
Record CommandLine := {
  opt_p : option Z;
  opt_n : option Z;
  opt_r : option Z;
  opt_o : bool;
  opt_s : option string;
  opt_v : bool;
  opt_stop_on_error : bool;
  opt_d : bool;
  opt_l : option string;
  positional : string }.

(** [arg.MustParse(&args)]: the options given overwrite the fields of
    [args]; the others keep the value they had. *)
Definition MustParse (args : Params) (cl : CommandLine) : Params :=
  {| Procs := default (Procs args) (opt_p cl);
     Nlines := default (Nlines args) (opt_n cl);
     Retry := default (Retry args) (opt_r cl);
     Ordered := Ordered args || opt_o cl;
     Sep := default (Sep args) (opt_s cl);
     Verbose := Verbose args || opt_v cl;
     StopOnError := StopOnError args || opt_stop_on_error cl;
     DryRun := DryRun args || opt_d cl;
     Log := default (Log args) (opt_l cl);
     Command := positional cl |}.

(** [Params{Procs: 1, Nlines: 1}] *)
Definition initial_Params : Params :=
  {| Procs := 1; Nlines := 1; Retry := 0; Ordered := false; Sep := "";
     Verbose := false; StopOnError := false; DryRun := false; Log := "";
     Command := "" |}.

Definition set_Sep (args : Params) (sep : string) : Params :=
  {| Procs := Procs args; Nlines := Nlines args; Retry := Retry args;
     Ordered := Ordered args; Sep := sep; Verbose := Verbose args;
     StopOnError := StopOnError args; DryRun := DryRun args; Log := Log args;
     Command := Command args |}.

(** The two tests of [main] on the parsed options: the message given to
    [p.Fail], or the options with the default separator filled in. *)
Definition check_modes (args : Params) : string + Params :=
  if negb (Sep args =? "")%string && (Nlines args >? 1)
  then inl "must specify either sep (-s) or n-lines (-n), not both"%string
  else if (Nlines args =? 1) && (Sep args =? "")%string
       then inr (set_Sep args "\s+")
       else inr args.



(** [func max(a, b int) int] *)
Definition max (a b : Z) : Z := if a >? b then a else b.

(** The state of the loop of [run]: the package variable [ExitCode], the
    local [fails], the bytes written to stdout and the file system. *)
Record Drain := {
  ExitCode : Z;
  fails : Z;
  stdout : list byte;
  files : Process.FS }.

(** [var ExitCode = 0], [fails := 0], nothing written yet. *)
Definition initial_Drain (s : Process.FS) : Drain :=
  {| ExitCode := 0; fails := 0; stdout := []; files := s |}.

Inductive Flow :=
| Next (d : Drain)
| Break (d : Drain)
| Fatal (e : Process.error)
| Panic.

(** One turn of the loop [for p := range process.Runner(...)] of [run].
    Messages on stderr, the timed flushes and the command log are left
    out. *)
Definition run_body (args : Params) (p : Process.Command) (d : Drain) : Flow :=
  let ex := Process.ExitCode p in
  let d1 := if ex =? 0 then d
            else {| ExitCode := max (ExitCode d) ex; fails := fails d + 1;
                    stdout := stdout d; files := files d |} in
  if negb (ex =? 0) && StopOnError args then Break d1
  else
    match Process.read_all p (files d1) with
    | None => Panic
    | Some (inl e) => Fatal e
    | Some (inr data) =>
        match Process.Cleanup p (files d1) with
        | None => Panic
        | Some s => Next {| ExitCode := ExitCode d1; fails := fails d1;
                            stdout := stdout d1 ++ data; files := s |}
        end
    end.

(** The loop of [run] over the results the channel delivers. *)
Fixpoint run_loop (args : Params) (results : list Process.Command) (d : Drain)
  : Flow :=
  match results with
  | [] => Next d
  | p :: rest =>
      match run_body args p d with
      | Next d' => run_loop args rest d'
      | stop => stop
      end
  end.

(** [func run], for the results the channel of the runner delivers: the
    final flush and the trailer of the log are left out. *)
Definition run (args : Params) (results : list Process.Command)
  (s : Process.FS) : Flow :=
  run_loop args results (initial_Drain s).

(** The results the loop looked at: all of them, or with [--stop-on-error]
    those up to the first failure. *)
Fixpoint observed (args : Params) (results : list Process.Command)
  : list Process.Command :=
  match results with
  | [] => []
  | p :: rest =>
      if negb (Process.ExitCode p =? 0) && StopOnError args then [p]
      else p :: observed args rest
  end.


(** How the process ends. *)
Inductive Outcome :=
| UsageError (msg : string)
| Exit (code : Z) (out : list byte)
| LogFatal (e : Process.error)
| Crash.

(** [func main], given what the environment decides: whether stdin is
    piped, whether the log file can be created, and the results the runner
    delivers for the commands generated from the input. *)
Definition main (cl : CommandLine) (isStdin : bool)
  (create_log : option Process.error)
  (results : Params -> list Process.Command) (s : Process.FS) : Outcome :=
  let args := MustParse initial_Params cl in
  match check_modes args with
  | inl msg => UsageError msg
  | inr args =>
      if negb isStdin then Exit 255 []
      else
        match (if (Log args =? "")%string then None else create_log) with
        | Some e => LogFatal e
        | None =>
            match run args (results args) s with
            | Next d | Break d => Exit (ExitCode d) (stdout d)
            | Fatal e => LogFatal e
            | Panic => Crash
            end
        end
  end.

(** *** The record scanner *)

Fixpoint has_prefix (p data : list byte) : bool :=
  match p, data with
  | [], _ => true
  | _ :: _, [] => false
  | x :: p', y :: data' => Byte.eqb x y && has_prefix p' data'
  end.

(** [bytes.Index]: the position of the first occurrence of [sep] in
    [data], or [-1]. *)
Fixpoint Index (data sep : list byte) : Z :=
  if has_prefix sep data then 0
  else match data with
       | [] => -1
       | _ :: data' => let i := Index data' sep in
                       if i <? 0 then -1 else i + 1
       end.

(** The split function [getScanner] installs when [RS] is set to [brs].
    It returns [advance] and [token]; its error is always nil. *)
Definition split (brs data : list byte) (atEOF : bool)
  : Z * option (list byte) :=
  if atEOF && (Z.of_nat (length data) =? 0) then (0, None)
  else
    let i := Index data brs in
    if i >=? 0
    then (i + 1, Some (take (Z.to_nat (i + Z.of_nat (length brs))) data))
    else if atEOF then (Z.of_nat (length data), Some data)
         else (0, None).

(** A [bufio.Scanner] over stdin: the bytes read and not yet consumed
    ([s.buf[s.start:s.end]]), the chunks the next reads will return, and
    whether end of input was seen.  The growth of the buffer and its 5e9
    limit are left out. *)
Record Scanner := {
  data : list byte;
  stdin : list (list byte);
  atEOF : bool }.

(** [Scan] of a [bufio.Scanner]: offer the split function what is
    buffered; with no token, read more, until end of input.  [fuel] bounds
    the number of reads. *)
Fixpoint Scan (fuel : nat) (brs : list byte) (s : Scanner)
  : option (list byte) * Scanner :=
  match fuel with
  | O => (None, s)
  | S fuel' =>
      let '(advance, token) :=
        if negb (length (data s) =? 0)%nat || atEOF s
        then split brs (data s) (atEOF s)
        else (0, None) in
      if (advance <? 0) || (advance >? Z.of_nat (length (data s)))
      then (None, s)
      else
        let s1 := {| data := drop (Z.to_nat advance) (data s);
                     stdin := stdin s; atEOF := atEOF s |} in
        match token with
        | Some t => (Some t, s1)
        | None =>
            if atEOF s1
            then (None, {| data := []; stdin := stdin s1; atEOF := true |})
            else match stdin s1 with
                 | [] => Scan fuel' brs
                           {| data := data s1; stdin := []; atEOF := true |}
                 | c :: rest => Scan fuel' brs
                           {| data := data s1 ++ c; stdin := rest;
                              atEOF := false |}
                 end
        end
  end.

(** [getScanner] with [RS] set to a non-empty [rs], reading [input]. *)
Definition getScanner (input : list (list byte)) : Scanner :=
  {| data := []; stdin := input; atEOF := false |}.

(** The records of the loop [for scanner.Scan()]: the tokens of the
    successive calls until one returns false. *)
Fixpoint scan_records (fuel : nat) (brs : list byte) (s : Scanner)
  : list (list byte) :=
  match fuel with
  | O => []
  | S fuel' =>
      match Scan (length (stdin s) + 2) brs s with
      | (Some t, s') => t :: scan_records fuel' brs s'
      | (None, _) => []
      end
  end.

Definition records (rs : string) (input : list (list byte))
  : list (list byte) :=
  scan_records (length (concat input) + 1) (list_byte_of_string rs)
    (getScanner input).

End Main.

(** ** Concrete runs used to exercise the statements *)
Module Scenario.
Import Process.

Definition world0 : World := {| wfs := empty_FS; now := 0; attempts := [] |}.

(** A child that prints [out], exits as [wait] says, with a callback (if
    any) returning [cb]. *)
Definition prints (out : list byte) (wait cb : option error) : Child :=
  {| pipe_err := None; start_err := None;
     output := {| chunks := [out]; ending := EOF |};
     wait_err := wait; callback_err := cb;
     tmp_file := inr "gargs.4242.0001"; write_err := None; seek_err := None;
     elapsed := 5 |}.

Definition hi : list byte := [x68; x69; x0a].

(** [echo hi]. *)
Definition echo_hi : nat -> string -> list string -> Child :=
  fun _ _ _ => prints hi None None.



(** Wait status of a child that called [exit(2)], and of one killed by
    SIGKILL. *)
Definition exited_2 : WaitStatus := 512.

(** A command that fails twice with status 2 and succeeds the third time,
    printing the number of the attempt. *)
Definition third_time_lucky : nat -> string -> list string -> Child :=
  fun n _ _ =>
    match n with
    | 0%nat => prints [x31; x0a] (Some (ExitError (Some exited_2))) None
    | 1%nat => prints [x32; x0a] (Some (ExitError (Some exited_2))) None
    | _ => prints [x33; x0a] None None
    end.

(** A command line with the positional command only, and one with both
    [-s ,] and [-n 2]. *)
Definition plain (command : string) : Main.CommandLine :=
  {| Main.opt_p := None; Main.opt_n := None; Main.opt_r := None;
     Main.opt_o := false; Main.opt_s := None; Main.opt_v := false;
     Main.opt_stop_on_error := false; Main.opt_d := false;
     Main.opt_l := None; Main.positional := command |}.


(** The result of a command that printed nothing and exited as [err]
    says. *)
Definition silent (cmd : string) (err : option error) : Command :=
  newCommand (Some (BytesReader [])) None cmd err.

(** Results with exit codes 0, 3 and 1. *)
Definition mixed_results : list Command :=
  [ silent "true" None;
    silent "exit 3" (Some (ExitError (Some 768)));
    silent "false" (Some (ExitError (Some 256))) ].


(** A run of [sh -c] commands that print nothing and succeed. *)
Definition quiet (c : string) (i : nat) : Command := silent c None.

Definition item (c : string) (i : nat) : Pool.istring :=
  {| Pool.cmd := c; Pool.ch := None; Pool.i := i |}.

End Scenario.

(** ** process/process.go: remote hosts *)
Module Remote.

(** Conversion to [int32]; [atomic.AddInt32] computes the sum and converts
    it. *)
Definition int32 (z : Z) : Z := (z + 2 ^ 31) mod 2 ^ 32 - 2 ^ 31.

(** [type sshConfig struct]: the embedded [easyssh.Config] is kept as the
    name of the server; [counter] is the address of the counter, a key of
    the store of counters. *)
Record sshConfig := { Server : string; counter : nat }.

(** [func (s *sshConfig) count() int32] *)
Definition count (s : sshConfig) (st : gmap nat Z) : Z := st !!! counter s.

(** [func (s *sshConfig) increment()] and [decrement()]. *)
Definition increment (s : sshConfig) (st : gmap nat Z) : gmap nat Z :=
  <[counter s := int32 (count s st + 1)]> st.

Definition decrement (s : sshConfig) (st : gmap nat Z) : gmap nat Z :=
  <[counter s := int32 (count s st + -1)]> st.

(** [func (o Options) perHost() int]: the division of Go truncates. *)
Definition perHost (gomaxprocs : Z) (Remotes : list sshConfig) : Z :=
  Z.quot gomaxprocs (Z.of_nat (length Remotes) + 1).

(** The loop [for _, r := range o.Remotes] of [getHost]. *)
Fixpoint first_below (ph : Z) (st : gmap nat Z) (rs : list sshConfig)
  : option sshConfig :=
  match rs with
  | [] => None
  | r :: rest => if count r st <? ph then Some r else first_below ph st rest
  end.

(** [func (o Options) getHost() *sshConfig] *)
Definition getHost (gomaxprocs : Z) (Remotes : list sshConfig)
  (st : gmap nat Z) : option sshConfig :=
  if (length Remotes =? 0)%nat then None
  else first_below (int32 (perHost gomaxprocs Remotes)) st Remotes.

End Remote.

(** ** main.go: generating the commands *)
Module Generate.

(** [strconv.FormatInt(int64(i), 10)] *)
Definition FormatInt (i : Z) : string := pretty i.

(** The loop [for i, t := range toks] of [fillTmplMap], from index [i]. *)
Fixpoint fill (i : nat) (toks : list string) (m : gmap string string)
  : gmap string string :=
  match toks with
  | [] => m
  | t :: rest => fill (S i) rest (<[FormatInt (Z.of_nat i) := t]> m)
  end.

(** [func fillTmplMap] *)
Definition fillTmplMap (toks : list string) (line : string)
  : gmap string string :=
  <["Line" := line]> (fill 0 toks ∅).

(** [strings.Join] *)
Fixpoint Join (elems : list string) (sep : string) : string :=
  match elems with
  | [] => ""
  | [e] => e
  | e :: rest => e +:+ sep +:+ Join rest sep
  end.

(** What [genCommands] has produced: the lines printed on stdout in a dry
    run and the commands sent on the channel. *)
Record Output := { printed : list string; sent : list string }.

Definition newline : string := String "010"%char "".

(** [func handleCommand] *)
Definition handleCommand (args : Main.Params) (cmd : string) (o : Output)
  : Output :=
  if Main.DryRun args
  then {| printed := printed o ++ [cmd +:+ newline]; sent := sent o |}
  else {| printed := printed o; sent := sent o ++ [cmd] |}.

(** The variables of the goroutine of [genCommands]. *)
Record Loop := { lines : list string; buf : string; out : Output }.

Section genCommands.

(** [regexp.MustCompile(sep).Split(line, -1)] for a valid expression
    [sep], what [tmpl.Execute] writes for a binding, and the field
    separator [FS] (a space when the variable is empty). *)
Variable Split : string -> string -> list string.
Variable Execute : gmap string string -> string.
Variable fs : string.

(** [tmpl.Execute(&buf, targs)] appends to [buf]; then
    [handleCommand(args, buf.String(), ch)]. *)
Definition emit (args : Main.Params) (toks : list string) (line : string)
  (l : Loop) (keep : list string) : Loop :=
  let b := buf l +:+ Execute (fillTmplMap toks line) in
  {| lines := keep; buf := b; out := handleCommand args b (out l) |}.

(** One turn of the loop [for scanner.Scan()], for a scanner that reports no
    error: [serr] is nil. *)
Definition scan_body (args : Main.Params) (l : Loop) (line : string) : Loop :=
  let l0 := {| lines := lines l; buf := ""; out := out l |} in
  let l1 :=
    if (Main.Sep args =? "")%string
    then {| lines := lines l0 ++ [line]; buf := buf l0; out := out l0 |}
    else emit args (Split (Main.Sep args) line) line l0 (lines l0) in
  if Z.of_nat (length (lines l1)) >=? Main.Nlines args
  then emit args (lines l1) (Join (lines l1) fs) l1 []
  else l1.

(** [func genCommands] on the records the scanner delivers.  [None] is the
    panic of [make([]string, 0, args.Nlines)] for a negative [Nlines]. *)
Definition genCommands (args : Main.Params) (records : list string)
  : option Output :=
  if (Main.Sep args =? "")%string && (Main.Nlines args <? 0) then None
  else
    let l := foldl (scan_body args)
               {| lines := []; buf := "";
                  out := {| printed := []; sent := [] |} |}
               records in
    if (0 <? length (lines l))%nat
    then Some (out (emit args (lines l) (Join (lines l) fs) l (lines l)))
    else Some (out l).

(** The command of a record in split mode, and of a group of records in
    N-line mode. *)
Definition split_command (sep line : string) : string :=
  Execute (fillTmplMap (Split sep line) line).

Definition group_command (group : list string) : string :=
  Execute (fillTmplMap group (Join group fs)).

End genCommands.

(** The options with [--dry-run] given. *)
Definition dry_run (args : Main.Params) : Main.Params :=
  {| Main.Procs := Main.Procs args; Main.Nlines := Main.Nlines args;
     Main.Retry := Main.Retry args; Main.Ordered := Main.Ordered args;
     Main.Sep := Main.Sep args; Main.Verbose := Main.Verbose args;
     Main.StopOnError := Main.StopOnError args; Main.DryRun := true;
     Main.Log := Main.Log args; Main.Command := Main.Command args |}.

(** A dry run beside the run it stands for: the same variables, with the
    commands printed, one per line, instead of sent. *)
Definition dry_of (l l' : Loop) : Prop :=
  lines l' = lines l /\ buf l' = buf l /\
  printed (out l) = [] /\ sent (out l') = [] /\
  printed (out l') = map (fun c => c +:+ newline) (sent (out l)).

End Generate.

(** ** Shapes of results and records *)
Module Shape.
Import Process.

(** A result whose output [out] is held in memory. *)
Definition in_memory (p : Command) (out : list byte) : Prop :=
  Reader p = Some (BytesReader out) /\ tmp p = None.

(** No record is empty, and all the records but the last end with the
    separator. *)
Fixpoint separated (brs : list byte) (records : list (list byte)) : Prop :=
  match records with
  | [] => True
  | t :: rest =>
      t <> [] /\
      match rest with
      | [] => True
      | _ :: _ => brs `suffix_of` t
      end /\ separated brs rest
  end.

(** The byte [b] is nowhere in a record but possibly at its end. *)
Definition cut_at (b : byte) (records : list (list byte)) : Prop :=
  Forall (fun t => b ∉ removelast t) records.

End Shape.

(** ** Progress of the ordered pool *)
Module Progress.
Import Process Pool.

(** What progress needs beside [oinv]: every channel the drain still has
    to serve belongs to an item in flight, and a worker is back from its
    loop only after [close(ch)]. *)
Definition served (s : OState) : Prop :=
  tickets (os_drain s) (os_istdout s) ⊆
    active (os_enumerate s) (os_workers s) /\
  (OReturned ∈ os_workers s ->
   os_enumerate s = Closing \/ os_enumerate s = Finished).

(** Every goroutine of [oRunner] has returned and nothing is left in a
    channel. *)
Definition settled (s : OState) : Prop :=
  os_commands s = [] /\ os_enumerate s = Finished /\ os_istdout s = [] /\
  Forall (fun w => w = OReturned) (os_workers s) /\
  os_drain s = DClosed /\ os_stdout s = [].

(** Something other than the closing of [cancel] can happen: a step of a
    goroutine of the pool, or a receive of the caller. *)
Definition moves (P : nat) (waiting : Z) (exec : string -> nat -> Command)
  (s : OState) : Prop :=
  exists s', ostep P waiting exec s s' /\ os_cancel s' = os_cancel s /\
             s' <> s.

End Progress.

(** ** The unordered pool *)
Module Unordered.
Import Process Pool.

Section UnorderedInvariant.
Variable exec : string -> nat -> Command.
Variable commands : list string.

(** The result a worker of [Runner] is producing or holding. *)
Definition in_flight (w : UWorker) : option Command :=
  match w with
  | URunning x => Some (exec (cmd x) (i x))
  | USelecting r => Some r
  | _ => None
  end.

(** The results of the commands no worker has received yet. *)
Definition todo (e : Enumerate) : list Command :=
  match e with
  | Ranging n | Queueing n _ _ => drop n (expected exec commands)
  | Sending x => drop (i x) (expected exec commands)
  | Closing | Finished => []
  end.

(** [enumerate] with a nil [istdout] is consistent with what is left in
    [commands]. *)
Definition uenumerate_ok (cs : list string) (e : Enumerate) : Prop :=
  match e with
  | Ranging n => cs = drop n commands
  | Sending x => commands !! i x = Some (cmd x) /\ cs = drop (S (i x)) commands
  | Finished => cs = []
  | Queueing _ _ _ | Closing => False
  end.

(** The invariant of an unordered run: no result is made twice, and while
    [cancel] is open none is lost, nothing has panicked, and [stdout] is
    closed only by the goroutine that waits for the workers. *)
Definition uinv (s : UState) : Prop :=
  let 'US cs e ws cl so sc cn rc pk := s in
  let all := rc ++ so ++ omap in_flight ws ++ todo e in
  uenumerate_ok cs e /\
  (UReturned ∈ ws -> e = Finished) /\
  all ⊆+ expected exec commands /\
  (cn = false ->
   all ≡ₚ expected exec commands /\ pk = false /\
   (sc = true -> cl = true /\ Forall (fun w => w = UReturned) ws)).

End UnorderedInvariant.

(** The states of the unordered run that handles one command after the
    other with the first worker, and its last state. *)
Definition ubetween (P : nat) (exec : string -> nat -> Command)
  (commands : list string) (k : nat) : UState :=
  US (drop k commands) (Ranging k) (repeat UReceiving P) false [] false false
     (take k (expected exec commands)) false.

Definition ufinished (P : nat) (exec : string -> nat -> Command)
  (commands : list string) : UState :=
  US [] Finished (repeat UReturned P) true [] true false
     (expected exec commands) false.

(** A run in which the caller never closes [cancel]. *)
Definition calm (P : nat) (exec : string -> nat -> Command)
  (s s' : UState) : Prop :=
  exists evs, urun P exec s evs s' /\ (CancelFired ∉ evs).

(** Every goroutine of [Runner] has returned and nothing is left in a
    channel. *)
Definition usettled (s : UState) : Prop :=
  us_commands s = [] /\ us_enumerate s = Finished /\
  Forall (fun w => w = UReturned) (us_workers s) /\
  us_closer s = true /\ us_closed s = true /\ us_stdout s = [].

End Unordered.

(** ** More concrete runs *)
Module Cases.
Import Process.

(** A command whose stdout pipe cannot be made. *)
Definition no_pipe : nat -> string -> list string -> Child :=
  fun _ _ _ =>
    {| pipe_err := Some (OtherError "too many open files");
       start_err := None;
       output := {| chunks := []; ending := EOF |};
       wait_err := None; callback_err := None;
       tmp_file := inr "gargs.4242.0001"; write_err := None;
       seek_err := None; elapsed := 0 |}.

(** [echo hi] when no temp file can be made. *)
Definition no_tmp : nat -> string -> list string -> Child :=
  fun _ _ _ =>
    {| pipe_err := None; start_err := None;
       output := {| chunks := [Scenario.hi]; ending := EOF |};
       wait_err := None; callback_err := None;
       tmp_file := inl (OtherError "no space left on device");
       write_err := None; seek_err := None; elapsed := 5 |}.

(** The options [gargs -s , "echo {0}"] ends up with, and those of
    [gargs -n 2 "echo {}"]. *)
Definition split_args (n : Z) : Main.Params :=
  {| Main.Procs := 1; Main.Nlines := n; Main.Retry := 0;
     Main.Ordered := false; Main.Sep := ","; Main.Verbose := false;
     Main.StopOnError := false; Main.DryRun := false; Main.Log := "";
     Main.Command := "echo {0}" |}.

Definition nline_args (n : Z) : Main.Params :=
  {| Main.Procs := 1; Main.Nlines := n; Main.Retry := 0;
     Main.Ordered := false; Main.Sep := ""; Main.Verbose := false;
     Main.StopOnError := false; Main.DryRun := false; Main.Log := "";
     Main.Command := "echo {}" |}.

Definition stop_args : Main.Params :=
  {| Main.Procs := 1; Main.Nlines := 1; Main.Retry := 0;
     Main.Ordered := false; Main.Sep := "\s+"; Main.Verbose := false;
     Main.StopOnError := true; Main.DryRun := false; Main.Log := "";
     Main.Command := "{}" |}.

(** The result of a command that printed [out] and exited 0. *)
Definition said (out : list byte) : Command :=
  newCommand (Some (BytesReader out)) None "echo" None.

(** A splitter that cuts nothing and a template that expands to its
    line. *)
Definition whole (sep line : string) : list string := [line].

Definition the_line (m : gmap string string) : string :=
  default ""%string (m !! "Line"%string).

(** Two hosts and their counters. *)
Definition host_a : Remote.sshConfig :=
  {| Remote.Server := "a"; Remote.counter := 0 |}.
Definition host_b : Remote.sshConfig :=
  {| Remote.Server := "b"; Remote.counter := 1 |}.

End Cases.


(** * Properties *)

Import Process.

(** ** Releasing a result *)

Lemma File_Close_disk f s : disk (snd (File_Close f s)) = disk s.
Proof. unfold File_Close. by case_bool_decide. Qed.

Lemma File_Close_open f s k :
  k ∈ open_fds (snd (File_Close f s)) <-> (k ∈ open_fds s /\ k <> fd f).
Proof. unfold File_Close. case_bool_decide; simpl; set_solver. Qed.

Lemma os_Remove_disk n s : disk (snd (os_Remove n s)) = delete n (disk s).
Proof.
  unfold os_Remove. destruct (disk s !! n) eqn:Hn; simpl; [done|].
  symmetry. by apply delete_id.
Qed.

Lemma os_Remove_open n s : open_fds (snd (os_Remove n s)) = open_fds s.
Proof. unfold os_Remove. by destruct (disk s !! n). Qed.

(** C10.  A Command captured in memory has no temp file: [Close] returns nil
    and changes nothing, [Cleanup] changes nothing.  A Command backed by a
    temp file: [Cleanup] closes the file and removes it from disk, leaving
    every other file and descriptor alone.  On either path [Cleanup]
    returns normally. *)
Theorem Cleanup_by_capture_path :
  (forall rdr err cmd d s,
     let c := {| Reader := rdr; tmp := None; Err := err; CmdStr := cmd;
                 Duration := d |} in
     Close c s = (None, s) /\ Cleanup c s = Some s) /\
  (forall rdr f err cmd d s,
     let c := {| Reader := rdr; tmp := Some f; Err := err; CmdStr := cmd;
                 Duration := d |} in
     exists s', Cleanup c s = Some s' /\
       (fd f ∉ open_fds s') /\ disk s' !! Name f = None /\
       (forall n, n <> Name f -> disk s' !! n = disk s !! n) /\
       (forall k, k <> fd f -> (k ∈ open_fds s' <-> k ∈ open_fds s))) /\
  (forall c s, is_Some (Cleanup c s)).
Proof.
  split; [|split].
  - intros. split; reflexivity.
  - intros rdr f err cmd d s c.
    unfold Cleanup, cleanup, Close; simpl.
    eexists; split; [reflexivity|].
    rewrite os_Remove_open, os_Remove_disk, File_Close_disk, File_Close_disk.
    repeat split.
    + rewrite !File_Close_open. tauto.
    + apply lookup_delete_eq.
    + intros n Hn. by rewrite lookup_delete_ne.
    + rewrite !File_Close_open. tauto.
    + rewrite !File_Close_open. tauto.
  - intros c s. unfold Cleanup, cleanup.
    destruct (tmp c); eauto.
Qed.

(** ** Capturing the output of one attempt *)

Lemma peek_fill_spec n size cs : forall buf,
  (n <= size)%nat ->
  exists b rest failed,
    peek_fill n size buf cs = (b, rest, failed) /\
    b ++ concat rest = buf ++ concat cs /\
    ((length (buf ++ concat cs) < n)%nat ->
       b = buf ++ concat cs /\ failed = true) /\
    ((n <= length (buf ++ concat cs))%nat ->
       (n <= length b)%nat /\ failed = false).
Proof.
  induction cs as [|c rest IH]; intros buf Hn; simpl.
  - rewrite app_nil_r.
    destruct (length buf <? n)%nat eqn:E1, (length buf <? size)%nat eqn:E2;
      simpl; do 3 eexists; (split; [reflexivity|]);
      apply Nat.ltb_lt in E1 || apply Nat.ltb_ge in E1;
      apply Nat.ltb_lt in E2 || apply Nat.ltb_ge in E2;
      rewrite ?app_nil_r; repeat split; auto; lia.
  - destruct (length buf <? n)%nat eqn:E1; simpl.
    + apply Nat.ltb_lt in E1.
      assert (E2 : (length buf <? size)%nat = true) by (apply Nat.ltb_lt; lia).
      rewrite E2.
      destruct (length c <=? size - length buf)%nat eqn:E3.
      * destruct (IH (buf ++ c) Hn) as (b & r & fl & Heq & Hcat & Hlt & Hge).
        exists b, r, fl. rewrite <- !app_assoc in *. repeat split; tauto.
      * apply Nat.leb_gt in E3.
        do 3 eexists; split; [reflexivity|].
        simpl. rewrite <- app_assoc, (app_assoc (take _ c)), take_drop.
        split; [done|].
        rewrite !length_app, length_take. split; intros; split; try done; lia.
    + apply Nat.ltb_ge in E1.
      do 3 eexists; split; [reflexivity|]. simpl.
      split; [done|]. rewrite length_app. split; intros; split; try done; lia.
Qed.


Lemma Peek_large bufsize st :
  0 <= bufsize -> bufsize <= Z.of_nat (length (concat (chunks st))) ->
  exists res pending,
    Peek bufsize st = (res, None, pending) /\
    concat pending = concat (chunks st).
Proof.
  intros H0 Hge. unfold Peek.
  destruct (bufsize <? 0) eqn:E; [apply Z.ltb_lt in E; lia|].
  destruct (peek_fill_spec (Z.to_nat bufsize) (Z.to_nat (Z.max bufsize 16))
              (chunks st) [] ltac:(lia))
    as (b & r & fl & Heq & Hcat & _ & Hl).
  rewrite Heq. simpl in Hl, Hcat.
  destruct Hl as [Hb ->]; [lia|].
  assert ((length b <? Z.to_nat bufsize)%nat = false) as ->
    by (apply Nat.ltb_ge; lia).
  do 2 eexists; split; [reflexivity|]. simpl. done.
Qed.


(** An attempt whose output fills the buffer goes through a temp file that
    holds the whole output. *)
Lemma oneRun_large bufsize child command callback env w :
  let k := child (length (attempts w)) command env in
  io_ok k -> 0 <= bufsize ->
  bufsize <= Z.of_nat (length (stdout_of k)) ->
  exists name,
    tmp_file k = inr name /\
    let f := {| Name := name; fd := next_fd (wfs w) |} in
    let r := oneRun bufsize child command callback env w in
    fst r = newCommand (Some (FileReader f)) (Some f) command
              (wait_then_callback k callback) /\
    disk (wfs (snd r)) !! name = Some (stdout_of k) /\
    fd f ∈ open_fds (wfs (snd r)).
Proof.
  intros k (Hp & Hs & He & (name & Ht) & Hw & Hk) H0 Hge.
  exists name. split; [done|]. unfold oneRun. fold k.
  rewrite Hp, Hs.
  destruct (Peek_large bufsize (output k) H0 Hge) as (res & pending & -> & Hc).
  rewrite Ht, He, Hw, Hk. simpl. rewrite Hc.
  split; [done|]. split; [apply lookup_insert_eq|set_solver].
Qed.


Lemma io_ok_prints out wait cb : io_ok (Scenario.prints out wait cb).
Proof. unfold io_ok; simpl. repeat split; eauto. Qed.

Lemma stdout_of_prints out wait cb :
  stdout_of (Scenario.prints out wait cb) = out.
Proof. unfold stdout_of; simpl. apply app_nil_r. Qed.

(** A run of [echo hi] with a two-byte buffer leaves its three bytes in a
    temp file, which [Cleanup] closes and removes. *)
Lemma Cleanup_by_capture_path_witness :
  let r := oneRun 2 Scenario.echo_hi "echo hi" false [] Scenario.world0 in
  let f := {| Name := "gargs.4242.0001"; fd := 3 |} in
  tmp (fst r) = Some f /\
  disk (wfs (snd r)) !! Name f = Some Scenario.hi /\
  exists s', Cleanup (fst r) (wfs (snd r)) = Some s' /\
             (fd f ∉ open_fds s') /\ disk s' !! Name f = None.
Proof.
  intros r f.
  destruct (oneRun_large 2 Scenario.echo_hi "echo hi" false []
              Scenario.world0) as (name & Hname & Hr & Hd & _).
  - apply io_ok_prints.
  - lia.
  - unfold Scenario.echo_hi. rewrite stdout_of_prints. simpl. lia.
  - injection Hname as <-. fold r in Hr, Hd.
    unfold Scenario.echo_hi in Hd. rewrite stdout_of_prints in Hd.
    split; [by rewrite Hr|]. split; [exact Hd|].
    rewrite Hr.
    destruct (proj1 (proj2 Cleanup_by_capture_path)
                (Some (FileReader f)) f None "echo hi"%string 0
                (wfs (snd r))) as (s' & Hc & Hfd & Hdisk & _).
    exists s'. repeat split; assumption.
Defined.







(** ** Retrying *)

Lemma oneRun_log bufsize child command callback env w :
  let k := child (length (attempts w)) command env in
  let w' := snd (oneRun bufsize child command callback env w) in
  attempts w' = attempts w ++ [command] /\ now w' = now w + elapsed k.
Proof.
  intros k w'. unfold w', oneRun. fold k.
  destruct (pipe_err k); [done|].
  destruct (start_err k); [done|].
  destruct (Peek bufsize (output k)) as [[res perr] pending].
  destruct perr as [[]|]; try done.
  destruct (tmp_file k); [done|]. simpl.
  destruct (ending (output k)); try done.
  destruct (write_err k); done.
Qed.

Lemma attempt_log bufsize child command callback env w j :
  attempts (snd (attempt bufsize child j command callback env w)) =
    attempts w ++ repeat command (S j).
Proof.
  induction j as [|j IH]; simpl attempt.
  - by destruct (oneRun_log bufsize child command callback env w) as [-> _].
  - match goal with |- attempts (snd (oneRun _ _ _ _ _ ?w1)) = _ =>
      destruct (oneRun_log bufsize child command callback env w1) as [-> _]
    end.
    rewrite IH, <- app_assoc. f_equal.
    change (repeat command (S j) ++ [command] = command :: repeat command (S j)).
    by rewrite <- repeat_cons.
Qed.

(** The retry loop, started after attempt [j], stops [m] attempts later when
    these [m] attempts failed and either the budget is spent or the next
    attempt succeeded. *)
Lemma retry_loop_attempt bufsize child command callback env w fuel :
  forall j m,
  let a i := attempt bufsize child i command callback env w in
  (m <= fuel)%nat ->
  (forall i, (j <= i < j + m)%nat -> ExitCode (fst (a i)) <> 0) ->
  (m = fuel \/ ExitCode (fst (a (j + m)%nat)) = 0) ->
  retry_loop bufsize child fuel command callback env (fst (a j)) (snd (a j))
    = a (j + m)%nat.
Proof.
  induction fuel as [|fuel IH]; intros j m a Hm Hfail Hstop.
  - assert (m = 0%nat) as -> by lia. rewrite Nat.add_0_r. simpl.
    by destruct (a j).
  - destruct m as [|m].
    + destruct Hstop as [?|Hz]; [lia|]. rewrite Nat.add_0_r in *.
      simpl. rewrite Hz. simpl. by destruct (a j).
    + simpl. specialize (Hfail j ltac:(lia)) as Hj.
      apply Z.eqb_neq in Hj. rewrite Hj.
      change (oneRun bufsize child command callback env (snd (a j)))
        with (a (S j)).
      destruct (a (S j)) as [c' w'] eqn:E.
      replace c' with (fst (a (S j))) by (by rewrite E).
      replace w' with (snd (a (S j))) by (by rewrite E).
      replace (j + S m)%nat with (S j + m)%nat by lia.
      apply IH; [lia| |].
      * intros i Hi. apply Hfail. lia.
      * destruct Hstop as [?|Hz]; [left; lia|right].
        by replace (S j + m)%nat with (j + S m)%nat by lia.
Qed.

(** C3.  With a retry budget [Retries o], let the attempts of a command be
    made one after the other.  If the first [n] attempts exit non-zero,
    [n] is within the budget, and attempt [n] succeeds or the budget is
    spent, then [Run] has handed the same command string to the shell
    [n + 1] times and returns the result of attempt [n], the final one,
    with a [Duration] that runs from the start of the first attempt to the
    end of the final one.  With [Retries o = 2] and attempts that fail,
    fail, succeed, this is the third attempt's result: exit code 0 and its
    stdout. *)
Theorem Run_returns_final_attempt bufsize child command o env w n :
  let a j := attempt bufsize child j command (CallBack o) env w in
  (n <= Z.to_nat (Retries o))%nat ->
  (forall j, (j < n)%nat -> ExitCode (fst (a j)) <> 0) ->
  (n = Z.to_nat (Retries o) \/ ExitCode (fst (a n)) = 0) ->
  let r := Run bufsize child command (Some o) env w in
  fst r = set_Duration (fst (a n)) (now (snd (a n)) - now w) /\
  snd r = snd (a n) /\
  attempts (snd r) = attempts w ++ repeat command (S n) /\
  ExitCode (fst r) = ExitCode (fst (a n)) /\
  Reader (fst r) = Reader (fst (a n)).
Proof.
  intros a Hn Hfail Hstop r.
  pose proof (retry_loop_attempt bufsize child command (CallBack o) env w
                (Z.to_nat (Retries o)) 0 n Hn) as Hloop.
  cbv zeta in Hloop. fold a in Hloop.
  specialize (Hloop ltac:(intros i Hi; apply Hfail; lia) Hstop).
  assert (Hr : r = (set_Duration (fst (a n)) (now (snd (a n)) - now w),
                    snd (a n))).
  { unfold r, Run.
    change (oneRun bufsize child command (CallBack o) env w) with (a 0%nat).
    destruct (a 0%nat) as [c0 w0]. simpl in Hloop. rewrite Hloop.
    by destruct (a n). }
  rewrite Hr. simpl. repeat split.
  apply attempt_log.
Qed.

Lemma Run_returns_final_attempt_witness :
  let o := {| CallBack := false; Ordered := false; Retries := 2 |} in
  let r := Run BufferSize Scenario.third_time_lucky "flaky" (Some o) []
             Scenario.world0 in
  attempts (snd r) = ["flaky"; "flaky"; "flaky"]%string /\
  ExitCode (fst r) = 0 /\
  Reader (fst r) = Some (BytesReader [x33; x0a]) /\
  Duration (fst r) = 15.
Proof.
  intros o r.
  destruct (Run_returns_final_attempt BufferSize Scenario.third_time_lucky
              "flaky" o [] Scenario.world0 2) as (H1 & H2 & H3 & H4 & H5).
  - vm_compute. lia.
  - intros [|[|j]] Hj; [vm_compute; discriminate ..|lia].
  - right. vm_compute. reflexivity.
  - fold r in H1, H2, H3, H4, H5.
    rewrite H3, H4, H5, H1. vm_compute. repeat split.
Defined.

(** ** main.go: options *)



(** ** main.go: the worst exit code *)

Lemma max_is_Zmax a b : Main.max a b = Z.max a b.
Proof. unfold Main.max. destruct (a >? b) eqn:E; lia. Qed.

Lemma run_body_counter args p d d' :
  Main.run_body args p d = Main.Next d' \/
  Main.run_body args p d = Main.Break d' ->
  Main.ExitCode d' =
    (if ExitCode p =? 0 then Main.ExitCode d
     else Main.max (Main.ExitCode d) (ExitCode p)) /\
  Main.ExitCode d <= Main.ExitCode d'.
Proof.
  unfold Main.run_body.
  destruct (ExitCode p =? 0) eqn:E; simpl.
  - destruct (read_all p (Main.files d)) as [[e|bs]|]; [intros [|]; done| |
      intros [|]; done].
    destruct (Cleanup p (Main.files d)); intros [H|H]; inversion H; simpl.
    split; [done|lia].
  - destruct (Main.StopOnError args).
    + intros [H|H]; inversion H; simpl. rewrite max_is_Zmax. split; [done|lia].
    + simpl.
      destruct (read_all p (Main.files d)) as [[e|bs]|]; [intros [|]; done| |
        intros [|]; done].
      destruct (Cleanup p (Main.files d)); intros [H|H]; inversion H; simpl.
      rewrite max_is_Zmax. split; [done|lia].
Qed.

Lemma run_body_Break args p d d' :
  Main.run_body args p d = Main.Break d' ->
  (negb (ExitCode p =? 0) && Main.StopOnError args) = true.
Proof.
  unfold Main.run_body.
  destruct (negb (ExitCode p =? 0) && Main.StopOnError args); [done|].
  destruct (read_all p _) as [[e|bs]|]; try done.
  by destruct (Cleanup p _).
Qed.

Lemma run_body_Next args p d d' :
  Main.run_body args p d = Main.Next d' ->
  (negb (ExitCode p =? 0) && Main.StopOnError args) = false.
Proof.
  unfold Main.run_body.
  by destruct (negb (ExitCode p =? 0) && Main.StopOnError args).
Qed.




(** The counter after the loop is the running maximum of the codes of the
    results looked at, from the value it had before. *)
Lemma run_loop_counter args results : forall d d',
  0 <= Main.ExitCode d ->
  Main.run_loop args results d = Main.Next d' \/
  Main.run_loop args results d = Main.Break d' ->
  Main.ExitCode d' =
    fold_left Z.max (map ExitCode (Main.observed args results))
      (Main.ExitCode d).
Proof.
  induction results as [|p rest IH]; intros d d' H0 H; simpl in *.
  - destruct H as [H|H]; inversion H. done.
  - destruct (Main.run_body args p d) as [d1|d1|e|] eqn:Hb;
      [| |destruct H; done..].
    + rewrite (run_body_Next _ _ _ _ Hb). simpl.
      destruct (run_body_counter args p d d1 (or_introl Hb)) as [Hc Hle].
      rewrite (IH d1 d' ltac:(lia) H), Hc, max_is_Zmax. f_equal.
      destruct (ExitCode p =? 0) eqn:E; [|done].
      apply Z.eqb_eq in E. lia.
    + rewrite (run_body_Break _ _ _ _ Hb). simpl.
      destruct (run_body_counter args p d d1 (or_intror Hb)) as [Hc Hle].
      assert (d' = d1) as -> by (destruct H as [H|H]; by inversion H).
      rewrite Hc, max_is_Zmax.
      destruct (ExitCode p =? 0) eqn:E; [|done].
      apply Z.eqb_eq in E. lia.
Qed.




(** ** The worker pool *)

Import Pool.

Lemma expected_lookup exec commands k c :
  commands !! k = Some c -> expected exec commands !! k = Some (exec c k).
Proof. intros H. unfold expected. by rewrite list_lookup_imap, H. Qed.

Lemma tickets_app d q k : tickets d (q ++ [k]) = tickets d q ++ [k].
Proof. by destruct d. Qed.

Lemma active_ws e ws1 ws2 w w' :
  ticket_of w = ticket_of w' ->
  active e (ws1 ++ w :: ws2) = active e (ws1 ++ w' :: ws2).
Proof. intros H. unfold active. rewrite !omap_app. simpl. by rewrite H. Qed.

Lemma Forall_worker_ok exec commands ws1 ws2 w w' :
  Forall (worker_ok exec commands) (ws1 ++ w :: ws2) ->
  worker_ok exec commands w' ->
  Forall (worker_ok exec commands) (ws1 ++ w' :: ws2).
Proof.
  rewrite !Forall_app, !Forall_cons. tauto.
Qed.

Ltac oinv_intro r :=
  split; [|split; [|split; [|split; [|split; [|split; [|split; [|split;
    [|exists r; split; [|split; [|split]]]]]]]]]].

Lemma omap_ticket_of_repeat n : omap ticket_of (repeat OReceiving n) = [].
Proof. induction n; simpl; done. Qed.

Lemma oinv_init P waiting exec commands :
  oinv P waiting exec commands (oRunner P commands).
Proof.
  unfold oRunner, oinv, active. rewrite omap_ticket_of_repeat.
  oinv_intro 0%nat; simpl; try done; try lia.
  - split; [done|lia].
  - apply Forall_forall. intros w Hw%list_elem_of_In%repeat_spec. by subst.
  - constructor.
  - apply repeat_length.
  - by left.
Qed.

Ltac oinv_auto :=
  try done;
  try match goal with
      | Hcl : _ = DClosed -> _ |- _ = DClosed -> _ =>
          intros ->; by destruct Hcl
      end.

Lemma oinv_step P waiting exec commands s s' :
  oinv P waiting exec commands s -> ostep P waiting exec s s' ->
  oinv P waiting exec commands s'.
Proof.
  intros Hinv Hstep. destruct Hstep; unfold oinv in *;
    destruct Hinv as (He & Hws & Hnd & Hact & Hcl & HP & Hq & Hso & rel &
                      Hrel & Hseq & Hsub & Hexact);
    simpl in *.
  - (* o_range *)
    destruct He as [Hcs Hi].
    assert (Hc : commands !! n = Some c).
    { rewrite <- (Nat.add_0_r n), <- lookup_drop, <- Hcs. done. }
    oinv_intro rel; oinv_auto.
    rewrite (drop_S _ _ _ Hc) in Hcs. by inversion Hcs.
  - (* o_queue *)
    destruct He as (-> & Hc & Hcs).
    assert (Hlt : forall y, y ∈ omap ticket_of ws -> (y < n)%nat).
    { intros y Hy. apply Hact in Hy. rewrite Hseq in Hy.
      apply elem_of_seq in Hy. lia. }
    oinv_intro rel; oinv_auto.
    + unfold active in *; simpl in *. apply NoDup_cons. split; [|done].
      intros Hi%Hlt. lia.
    + unfold active in *; simpl in *. rewrite tickets_app.
      intros y [->|Hy]%elem_of_cons; set_solver.
    + right. rewrite length_app. simpl. lia.
    + rewrite tickets_app, length_app. simpl. lia.
    + rewrite tickets_app, length_app. simpl.
      rewrite Nat.add_1_r, seq_S, <- Hseq. do 2 f_equal. lia.
  - (* o_handoff *)
    destruct He as (-> & Hc & Hcs). simpl in *.
    assert (rel = n) as -> by lia.
    oinv_intro n; oinv_auto; try (simpl; lia).
    + unfold active in *; simpl in *. apply NoDup_cons. split; [|done].
      intros Hi%Hact. by apply elem_of_nil in Hi.
    + unfold active in *; simpl in *.
      intros y [->|Hy%Hact]%elem_of_cons; [set_solver|].
      by apply elem_of_nil in Hy.
  - (* o_dispatch *)
    destruct He as ([Hch Hc] & Hcs).
    assert (Hperm : active (Sending x) (ws1 ++ OReceiving :: ws2) ≡ₚ
                    active (Ranging (S (i x))) (ws1 ++ ORunning x :: ws2)).
    { unfold active. rewrite !omap_app. simpl. apply Permutation_middle. }
    oinv_intro rel; oinv_auto.
    + split; [done|]. apply lookup_lt_Some in Hc. lia.
    + eapply Forall_worker_ok; [done|]. by split.
    + by rewrite <- Hperm.
    + by rewrite <- Hperm.
    + by rewrite !length_app in *.
  - (* o_close_ch *)
    destruct He as [Hcs Hi].
    assert (n = length commands) as ->.
    { apply (f_equal length) in Hcs. rewrite length_drop in Hcs.
      simpl in Hcs. lia. }
    oinv_intro rel; oinv_auto.
  - (* o_close_istdout *)
    oinv_intro rel; oinv_auto.
  - (* o_run *)
    oinv_intro rel; oinv_auto.
    + eapply Forall_worker_ok; [done|]. simpl. split; [|done].
      rewrite Forall_app, Forall_cons in Hws. tauto.
    + by rewrite (active_ws _ _ _ _ (ORunning x)).
    + by rewrite (active_ws _ _ _ _ (ORunning x)).
    + by rewrite !length_app in *.
  - (* o_result *)
    assert (Hw : worker_ok exec commands (OSending x r)).
    { rewrite Forall_app, Forall_cons in Hws. tauto. }
    destruct Hw as [[Hch Hc] ->].
    assert (k = i x) as -> by congruence.
    injection Hseq as Hk Hq'.
    assert (Hperm : active e (ws1 ++ OSending x (exec (cmd x) (i x)) :: ws2)
                    ≡ₚ i x :: active e (ws1 ++ OReceiving :: ws2)).
    { unfold active. rewrite !omap_app. simpl.
      rewrite app_assoc, (app_assoc _ (omap _ ws1)).
      symmetry. apply Permutation_middle. }
    rewrite Hperm in Hnd, Hact. apply NoDup_cons in Hnd as [Hni Hnd].
    oinv_intro (S rel); oinv_auto; try lia.
    + eapply Forall_worker_ok; [done|]. done.
    + intros y Hy. assert (y ∈ i x :: q) as [->|]%elem_of_cons
        by (apply Hact; set_solver); done.
    + by rewrite !length_app in *.
    + rewrite app_nil_r in Hsub.
      rewrite (take_S_r _ _ (exec (cmd x) (i x))), app_assoc.
      * apply sublist_app; done.
      * rewrite <- Hk. by apply expected_lookup.
    + intros Hcn. rewrite app_nil_r in Hexact.
      rewrite (take_S_r _ _ (exec (cmd x) (i x))), app_assoc.
      * by rewrite Hexact.
      * rewrite <- Hk. by apply expected_lookup.
  - (* o_return *)
    oinv_intro rel; oinv_auto.
    + eapply Forall_worker_ok; [done|]. done.
    + by rewrite (active_ws _ _ _ _ OReceiving).
    + by rewrite (active_ws _ _ _ _ OReceiving).
    + by rewrite !length_app in *.
  - (* o_next *)
    oinv_intro rel; oinv_auto.
    destruct Hq as [?|Hq]; [done|]. right. simpl in Hq. lia.
  - (* o_forward *)
    oinv_intro rel; oinv_auto.
    + rewrite length_app. simpl. unfold stdout_cap in *. lia.
    + by rewrite app_nil_r.
    + by rewrite app_nil_r.
  - (* o_drop *)
    oinv_intro rel; oinv_auto.
    etrans; [|exact Hsub]. apply sublist_app; [done|].
    apply sublist_app; [done|]. apply sublist_nil_l.
  - (* o_close_stdout *)
    oinv_intro rel; oinv_auto.
  - (* o_receive *)
    oinv_intro rel; oinv_auto.
    + simpl in Hso. lia.
    + by rewrite <- app_assoc.
    + by rewrite <- app_assoc.
  - (* o_cancel *)
    oinv_intro rel; oinv_auto.
Qed.

Lemma oinv_reachable P waiting exec commands s :
  rtc (ostep P waiting exec) (oRunner P commands) s ->
  oinv P waiting exec commands s.
Proof.
  intros H. eapply (rtc_ind_r (oinv P waiting exec commands)); [| |exact H].
  - apply oinv_init.
  - intros y z _ Hstep IH. eapply oinv_step; eauto.
Qed.

Lemma one_by_one_step P waiting exec commands k c :
  (0 < P)%nat -> commands !! k = Some c ->
  rtc (ostep P waiting exec) (between P exec commands k)
      (between P exec commands (S k)).
Proof.
  intros HP Hc. unfold between. destruct P as [|p]; [lia|]. simpl repeat.
  rewrite (drop_S _ _ _ Hc).
  rewrite (take_S_r _ _ _ (expected_lookup exec _ _ _ Hc)).
  eapply rtc_l; [apply o_range|].
  eapply rtc_l; [apply o_handoff|].
  eapply rtc_l; [apply (o_dispatch _ _ _ _ _ _ [])|]. simpl.
  eapply rtc_l; [apply (o_run _ _ _ _ _ _ _ [])|]. simpl.
  eapply rtc_l; [apply (o_result _ _ _ _ _ k _ _ _ []); done|]. simpl.
  eapply rtc_l; [apply o_forward; unfold stdout_cap; simpl; lia|]. simpl.
  eapply rtc_l; [apply o_receive|].
  apply rtc_refl.
Qed.

Lemma one_by_one P waiting exec commands k :
  (0 < P)%nat -> (k <= length commands)%nat ->
  rtc (ostep P waiting exec) (oRunner P commands) (between P exec commands k).
Proof.
  intros HP. induction k as [|k IH]; intros Hk.
  - apply rtc_refl.
  - destruct (lookup_lt_is_Some_2 commands k ltac:(lia)) as [c Hc].
    etrans; [apply IH; lia|]. by eapply one_by_one_step.
Qed.

Lemma one_by_one_finished P waiting exec commands :
  (0 < P)%nat ->
  rtc (ostep P waiting exec) (oRunner P commands) (finished P exec commands).
Proof.
  intros HP.
  etrans; [apply (one_by_one P waiting exec commands (length commands));
             [done|lia]|].
  unfold between, finished. rewrite drop_all.
  rewrite take_ge by (unfold expected; rewrite length_imap; lia).
  eapply rtc_l; [apply o_close_ch|].
  eapply rtc_l; [apply o_close_istdout|].
  eapply rtc_l; [apply o_close_stdout|].
  apply rtc_refl.
Qed.

Lemma omap_length_le {A B} (f : A -> option B) (l : list A) :
  (length (omap f l) <= length l)%nat.
Proof.
  induction l as [|a l IH]; [done|].
  change (omap f (a :: l))
    with (match f a with Some y => y :: omap f l | None => omap f l end).
  destruct (f a); simpl; lia.
Qed.

Lemma parked_sublist d ws :
  omap (parked d) ws `sublist_of` omap ticket_of ws.
Proof.
  induction ws as [|w ws IH]; simpl; [done|].
  destruct w as [|x|x r|]; simpl; try done.
  - by apply sublist_cons.
  - destruct d; try (by apply sublist_skip).
    case_decide; [by apply sublist_cons|by apply sublist_skip].
Qed.

Lemma parked_bound P waiting exec commands s :
  oinv P waiting exec commands s ->
  (length (omap (parked (os_drain s)) (os_workers s))
   <= length (os_istdout s))%nat.
Proof.
  destruct s as [cs e q ws d so cn rc]. simpl.
  intros (_ & Hws & Hnd & Hact & _).
  apply submseteq_length, NoDup_submseteq.
  - eapply sublist_NoDup; [|apply parked_sublist].
    unfold active in Hnd. by apply NoDup_app in Hnd as (_ & _ & Hnd).
  - intros y Hy.
    assert (Hin : y ∈ tickets d q).
    { apply Hact. unfold active. apply elem_of_app. right.
      eapply elem_of_sublist; [done|apply parked_sublist]. }
    apply list_elem_of_omap in Hy as (w & Hw & Hpark).
    rewrite Forall_forall in Hws. specialize (Hws w Hw).
    destruct w as [|x|x r|]; simpl in Hpark; try done.
    destruct Hws as [[Hch _] _].
    destruct d; simpl in Hin; try done.
    case_decide; [done|]. inversion Hpark; subst.
    apply elem_of_cons in Hin as [Heq|]; [congruence|done].
Qed.





(** ** Capacities *)

Lemma ustep_stdout_bound P exec s ev s' :
  ustep P exec s ev s' ->
  (length (us_stdout s) <= P)%nat -> (length (us_stdout s') <= P)%nat.
Proof.
  destruct 1; simpl; try done.
  - rewrite length_app. simpl. unfold stdout_cap in *. lia.
  - lia.
Qed.

Lemma urun_stdout_bound P exec s evs s' :
  urun P exec s evs s' ->
  (length (us_stdout s) <= P)%nat -> (length (us_stdout s') <= P)%nat.
Proof.
  induction 1; [done|]. intros Hs. apply IHurun.
  by eapply ustep_stdout_bound.
Qed.

(** C8.  The queue of [oRunner] is made with capacity
    [WaitingMultiplier * P], 4 * P with the initial value of the variable,
    and the result channel of [Runner] with capacity [P].  In every state
    of an ordered run the queue holds at most [WaitingMultiplier * P]
    channels, and the results that are ready while the drain waits for an
    earlier one are at most as many as the channels in the queue, and at
    most as many as the workers.  In
    every state of an unordered run the result channel holds at most [P]
    results. *)
Theorem channel_capacities P waiting exec commands :
  istdout_cap P WaitingMultiplier = 4 * Z.of_nat P /\
  stdout_cap P = P /\
  (0 <= waiting ->
   forall s, rtc (ostep P waiting exec) (oRunner P commands) s ->
     Z.of_nat (length (os_istdout s)) <= waiting * Z.of_nat P /\
     (length (omap (parked (os_drain s)) (os_workers s))
      <= length (os_istdout s))%nat /\
     Z.of_nat (length (omap (parked (os_drain s)) (os_workers s)))
      <= waiting * Z.of_nat P /\
     (length (omap (parked (os_drain s)) (os_workers s)) <= P)%nat) /\
  (forall evs s, urun P exec (Runner P commands) evs s ->
     (length (us_stdout s) <= P)%nat).
Proof.
  split; [done|]. split; [done|]. split.
  - intros Hw s Hreach. apply oinv_reachable in Hreach.
    pose proof (parked_bound _ _ _ _ _ Hreach) as Hp.
    destruct s as [cs e q ws d so cn rc]. simpl in *.
    destruct Hreach as (_ & _ & _ & _ & _ & HP & Hq & _).
    assert (Z.of_nat (length q) <= waiting * Z.of_nat P).
    { destruct Hq as [->|Hq]; [simpl; lia|done]. }
    split; [done|]. split; [done|]. split; [lia|].
    rewrite <- HP. apply omap_length_le.
  - intros evs s Hrun. eapply urun_stdout_bound; [done|]. simpl. lia.
Qed.

Lemma channel_capacities_witness :
  let s := finished 2 Scenario.quiet ["echo a"; "echo b"]%string in
  Z.of_nat (length (os_istdout s)) <= 4 * 2 /\
  (length (us_stdout (Runner 2 ["echo a"; "echo b"]%string)) <= 2)%nat.
Proof.
  intros s.
  destruct (channel_capacities 2 WaitingMultiplier Scenario.quiet
              ["echo a"; "echo b"]%string) as (_ & _ & H3 & H4).
  split.
  - apply (H3 ltac:(unfold WaitingMultiplier; lia) s).
    apply one_by_one_finished. lia.
  - apply (H4 []). constructor.
Defined.

(** ** Cancellation *)

(** C6 on the code.  A worker of [Runner] that takes the cancel case of its
    select closes [stdout] and is back at the head of its loop, ready for
    the next command.  With one worker and two commands: the first command
    runs, the caller closes [cancel], the worker sees it, then receives and
    starts the second command, and the program panics at the next select,
    where [stdout] is already closed.  In ordered mode the workers do not
    look at [cancel] at all: with [cancel] closed from the start, the
    result of the first command is dropped and the worker is running the
    second. *)
Theorem cancelled_worker_starts_next_command :
  (forall P exec s w s',
     ustep P exec s (CancelSeen w) s' ->
     us_workers s' !! w = Some UReceiving /\ us_closed s' = true) /\
  (exists s,
     urun 1 Scenario.quiet (Runner 1 ["c1"; "c2"]%string)
       [ Quiet; Started 0 (Scenario.item "c1" 0);
         CancelFired; Quiet; CancelSeen 0;
         Quiet; Started 0 (Scenario.item "c2" 1);
         Quiet; Panicked ] s /\
     us_panicked s = true) /\
  (exists s,
     rtc (ostep 1 WaitingMultiplier Scenario.quiet)
       (OS ["c1"; "c2"]%string (Ranging 0) [] [OReceiving] DRanging [] true [])
       s /\
     os_cancel s = true /\ os_received s = [] /\ os_stdout s = [] /\
     os_workers s = [ORunning {| cmd := "c2"; ch := Some 1%nat; i := 1 |}]).
Proof.
  split; [|split].
  - intros P exec s w s' H. inversion H; subst; simpl.
    split; [|done]. by rewrite list_lookup_middle.
  - eexists. split.
    + unfold Runner. simpl repeat.
      eapply urun_cons; [apply u_range|].
      eapply urun_cons; [apply (u_dispatch _ _ _ _ [])|]. simpl.
      eapply urun_cons; [apply u_cancel|].
      eapply urun_cons; [apply (u_run _ _ _ _ _ [])|]. simpl.
      eapply urun_cons; [apply (u_cancelled _ _ _ _ _ [])|]. simpl.
      eapply urun_cons; [apply u_range|].
      eapply urun_cons; [apply (u_dispatch _ _ _ _ [])|]. simpl.
      eapply urun_cons; [apply (u_run _ _ _ _ _ [])|]. simpl.
      eapply urun_cons; [apply (u_cancelled_closed _ _ _ _ _ [])|]. simpl.
      apply urun_nil.
    + reflexivity.
  - eexists. split.
    + eapply rtc_l; [apply o_range|].
      eapply rtc_l; [apply o_handoff|].
      eapply rtc_l; [apply (o_dispatch _ _ _ _ _ _ [])|]. simpl.
      eapply rtc_l; [apply (o_run _ _ _ _ _ _ _ [])|]. simpl.
      eapply rtc_l; [apply (o_result _ _ _ _ _ 0%nat _ _ _ []); done|]. simpl.
      eapply rtc_l; [apply o_drop|].
      eapply rtc_l; [apply o_range|].
      eapply rtc_l; [apply o_handoff|].
      eapply rtc_l; [apply (o_dispatch _ _ _ _ _ _ [])|]. simpl.
      apply rtc_refl.
    + done.
Qed.

(** ** The record scanner *)

Lemma has_prefix_length p : forall d,
  Main.has_prefix p d = true -> (length p <= length d)%nat.
Proof.
  induction p as [|x p IH]; intros [|y d]; simpl; try done; try lia.
  intros [_ H]%andb_prop. apply IH in H. lia.
Qed.

Lemma Index_bounds sep : forall d,
  0 <= Main.Index d sep ->
  Main.Index d sep + Z.of_nat (length sep) <= Z.of_nat (length d).
Proof.
  induction d as [|y d IH]; simpl.
  - destruct (Main.has_prefix sep []) eqn:E; [|lia].
    apply has_prefix_length in E. simpl in *. lia.
  - destruct (Main.has_prefix sep (y :: d)) eqn:E.
    + apply has_prefix_length in E. simpl in *. lia.
    + destruct (Main.Index d sep <? 0) eqn:E2; [lia|].
      apply Z.ltb_ge in E2. specialize (IH E2). lia.
Qed.

(** What the split function answers for a one-byte separator: a token is
    the first [advance] bytes of the data, and there is no token at end of
    input only when no data is left. *)
Lemma split_one_byte b data eof :
  let '(advance, token) := Main.split [b] data eof in
  0 <= advance <= Z.of_nat (length data) /\
  match token with
  | Some t => t = take (Z.to_nat advance) data /\ 0 < advance
  | None => advance = 0 /\ (eof = true -> data = [])
  end.
Proof.
  unfold Main.split.
  destruct (eof && (Z.of_nat (length data) =? 0)) eqn:E0.
  - apply andb_prop in E0 as [-> E0]. apply Z.eqb_eq in E0.
    destruct data; [|simpl in E0; lia]. simpl. repeat split; lia.
  - destruct (Main.Index data [b] >=? 0) eqn:Ei.
    + pose proof (Index_bounds [b] data ltac:(lia)) as Hb. simpl in Hb.
      repeat split; try lia.
    + destruct eof; simpl in *.
      * apply Z.eqb_neq in E0. repeat split; try lia.
        by rewrite Nat2Z.id, firstn_all.
      * repeat split; try lia; done.
Qed.

Lemma offer_one_byte b s :
  let '(advance, token) :=
    if negb (length (Main.data s) =? 0)%nat || Main.atEOF s
    then Main.split [b] (Main.data s) (Main.atEOF s)
    else (0, None) in
  0 <= advance <= Z.of_nat (length (Main.data s)) /\
  match token with
  | Some t => t = take (Z.to_nat advance) (Main.data s) /\ 0 < advance
  | None => advance = 0 /\ (Main.atEOF s = true -> Main.data s = [])
  end.
Proof.
  destruct (negb (length (Main.data s) =? 0)%nat || Main.atEOF s) eqn:E.
  - apply split_one_byte.
  - apply orb_false_iff in E as [_ ->]. repeat split; try lia; done.
Qed.

(** With a one-byte separator a token and what the scanner keeps make up
    what it had. *)
Lemma Scan_token b fuel : forall s t s',
  Main.Scan fuel [b] s = (Some t, s') ->
  Main.data s ++ concat (Main.stdin s)
    = t ++ Main.data s' ++ concat (Main.stdin s') /\ t <> [].
Proof.
  induction fuel as [|fuel IH]; intros s t s' H; simpl in H; [done|].
  pose proof (offer_one_byte b s) as Ho.
  destruct (if negb (length (Main.data s) =? 0)%nat || Main.atEOF s
            then Main.split [b] (Main.data s) (Main.atEOF s)
            else (0, None)) as [advance token].
  destruct Ho as [Hadv Htok].
  destruct ((advance <? 0) || (advance >? Z.of_nat (length (Main.data s))))
    eqn:Ebad; [lia|].
  destruct token as [t0|].
  - destruct Htok as [-> Hpos]. inversion H; subst; clear H. simpl.
    rewrite app_assoc, take_drop. split; [done|].
    intros Ht. apply (f_equal length) in Ht. rewrite length_take in Ht.
    simpl in Ht. lia.
  - destruct Htok as [-> Heof]. simpl in H.
    destruct (Main.atEOF s) eqn:Ee; [done|].
    destruct (Main.stdin s) as [|c rest] eqn:Es.
    + apply IH in H. simpl in H. by rewrite app_nil_r in *.
    + apply IH in H. simpl in H. by rewrite <- app_assoc in H.
Qed.

(** With enough fuel, a scan that finds no token has nothing left. *)
Lemma Scan_none b fuel : forall s s',
  (Main.atEOF s = true -> Main.stdin s = []) ->
  (length (Main.stdin s) + (if Main.atEOF s then 1 else 2) <= fuel)%nat ->
  Main.Scan fuel [b] s = (None, s') ->
  Main.data s ++ concat (Main.stdin s) = [].
Proof.
  induction fuel as [|fuel IH]; intros s s' Hwf Hfuel H; simpl in H.
  { destruct (Main.atEOF s); lia. }
  pose proof (offer_one_byte b s) as Ho.
  destruct (if negb (length (Main.data s) =? 0)%nat || Main.atEOF s
            then Main.split [b] (Main.data s) (Main.atEOF s)
            else (0, None)) as [advance token].
  destruct Ho as [Hadv Htok].
  destruct ((advance <? 0) || (advance >? Z.of_nat (length (Main.data s))))
    eqn:Ebad; [lia|].
  destruct token as [t0|]; [done|].
  destruct Htok as [-> Heof]. simpl in H.
  destruct (Main.atEOF s) eqn:Ee.
  - rewrite Heof, Hwf by done. done.
  - destruct (Main.stdin s) as [|c rest] eqn:Es.
    + apply IH in H; simpl in *; try done; try lia.
    + apply IH in H; simpl in *; try done; try lia.
      by rewrite <- app_assoc in H.
Qed.

Lemma Scan_wf b fuel : forall s r s',
  (Main.atEOF s = true -> Main.stdin s = []) ->
  Main.Scan fuel [b] s = (r, s') ->
  (Main.atEOF s' = true -> Main.stdin s' = []).
Proof.
  induction fuel as [|fuel IH]; intros s r s' Hwf H; simpl in H.
  - by inversion H; subst.
  - destruct (if negb (length (Main.data s) =? 0)%nat || Main.atEOF s
              then Main.split [b] (Main.data s) (Main.atEOF s)
              else (0, None)) as [advance token].
    destruct ((advance <? 0) || (advance >? Z.of_nat (length (Main.data s)))).
    + by inversion H; subst.
    + destruct token as [t0|].
      * by inversion H; subst.
      * simpl in H. destruct (Main.atEOF s) eqn:Ee.
        -- inversion H; subst. simpl. auto.
        -- destruct (Main.stdin s) as [|c rest] eqn:Es;
             (eapply IH; [|exact H]; simpl; done).
Qed.

Lemma scan_records_concat b fuel : forall s,
  (Main.atEOF s = true -> Main.stdin s = []) ->
  (length (Main.data s ++ concat (Main.stdin s)) < fuel)%nat ->
  concat (Main.scan_records fuel [b] s)
    = Main.data s ++ concat (Main.stdin s).
Proof.
  induction fuel as [|fuel IH]; intros s Hwf Hfuel; [lia|]. simpl.
  destruct (Main.Scan (length (Main.stdin s) + 2) [b] s) as [[t|] s'] eqn:E.
  - pose proof (Scan_wf _ _ _ _ _ Hwf E) as Hwf'.
    apply Scan_token in E as [Heq Hne]. simpl.
    rewrite IH; [done|done|].
    rewrite Heq, length_app in Hfuel.
    destruct t; [done|]. simpl in Hfuel. lia.
  - apply Scan_none in E; [|done|destruct (Main.atEOF s); lia]. by rewrite E.
Qed.

(** With a one-byte separator the records put together are the input,
    however the input is cut by the reads. *)
Lemma one_byte_separator_keeps_input rs b input :
  list_byte_of_string rs = [b] ->
  concat (Main.records rs input) = concat input.
Proof.
  intros Hrs. unfold Main.records. rewrite Hrs.
  rewrite scan_records_concat; simpl; [done|done|lia].
Qed.

(** C7 on the code.  With the two-byte separator [--] the input [a--b] is
    cut into the records [a--] and [-b], whether it is read in one piece or
    byte by byte: the second dash is in both, and the records put together
    are [a---b], not the input. *)
Theorem two_byte_separator_repeats_a_byte :
  let input := list_byte_of_string "a--b" in
  Main.split (list_byte_of_string "--") input false
    = (2, Some (list_byte_of_string "a--")) /\
  Main.records "--" [input]
    = [list_byte_of_string "a--"; list_byte_of_string "-b"] /\
  Main.records "--" (map (fun b => [b]) input)
    = [list_byte_of_string "a--"; list_byte_of_string "-b"] /\
  concat (Main.records "--" [input]) = list_byte_of_string "a---b" /\
  concat (Main.records "--" [input]) <> input.
Proof. vm_compute. repeat split. discriminate. Qed.

(** * More of the code *)

Import Shape.

(** ** Run, oneRun and Cleanup *)

Lemma retry_loop_S bufsize child fuel command callback env c w :
  retry_loop bufsize child (S fuel) command callback env c w =
    if ExitCode c =? 0 then (c, w)
    else retry_loop bufsize child fuel command callback env
           (fst (oneRun bufsize child command callback env w))
           (snd (oneRun bufsize child command callback env w)).
Proof. simpl. by destruct (oneRun bufsize child command callback env w). Qed.

(** The retry loop always stops: after some [m] more attempts, all failed
    but possibly the last, with the budget spent if the last failed. *)
Lemma retry_loop_stops bufsize child command callback env w fuel :
  forall j,
  let a i := attempt bufsize child i command callback env w in
  exists m, (m <= fuel)%nat /\
    retry_loop bufsize child fuel command callback env (fst (a j)) (snd (a j))
      = a (j + m)%nat /\
    (forall i, (j <= i < j + m)%nat -> ExitCode (fst (a i)) <> 0) /\
    (m = fuel \/ ExitCode (fst (a (j + m)%nat)) = 0).
Proof.
  induction fuel as [|fuel IH]; intros j a.
  - exists 0%nat. rewrite Nat.add_0_r.
    repeat split; [lia|by destruct (a j)|intros; lia|by left].
  - destruct (Z.eq_dec (ExitCode (fst (a j))) 0) as [Hz|Hnz].
    + exists 0%nat. rewrite Nat.add_0_r, retry_loop_S, Hz.
      repeat split; [lia|by destruct (a j)|intros; lia|by right].
    + destruct (IH (S j)) as (m & Hm & Hloop & Hfail & Hstop).
      exists (S m). replace (j + S m)%nat with (S j + m)%nat by lia.
      split; [lia|]. split; [|split].
      * rewrite retry_loop_S. apply Z.eqb_neq in Hnz. rewrite Hnz.
        exact Hloop.
      * intros i Hi. destruct (decide (i = j)) as [->|]; [done|].
        apply Hfail. lia.
      * destruct Hstop as [->|]; [by left|by right].
Qed.

(** X1, [Run].  The retry loop stops at the first attempt that exits 0, or
    when the budget [Retries] is spent (nil options or a budget of zero or
    less give one attempt): for some [n] not above the budget the result is
    that of attempt [n], with [Duration] counted from the call, the world is
    the one that attempt left, the command was handed to the shell [n + 1]
    times, every attempt before [n] failed, and a failed result means the
    whole budget was used. *)
Theorem Run_stops_at_first_success bufsize child command opts env w :
  let callback := match opts with Some o => CallBack o | None => false end in
  let budget := Z.to_nat (match opts with Some o => Retries o | None => 0 end) in
  let a j := attempt bufsize child j command callback env w in
  let r := Run bufsize child command opts env w in
  exists n, (n <= budget)%nat /\
    fst r = set_Duration (fst (a n)) (now (snd (a n)) - now w) /\
    snd r = snd (a n) /\
    attempts (snd r) = attempts w ++ repeat command (S n) /\
    (forall j, (j < n)%nat -> ExitCode (fst (a j)) <> 0) /\
    (ExitCode (fst r) <> 0 -> n = budget).
Proof.
  intros callback budget a r.
  destruct (retry_loop_stops bufsize child command callback env w budget 0)
    as (n & Hn & Hloop & Hfail & Hstop).
  cbv zeta in Hloop. fold a in Hloop. rewrite Nat.add_0_l in Hloop.
  exists n. split; [done|].
  assert (Hr : r = (set_Duration (fst (a n)) (now (snd (a n)) - now w),
                    snd (a n))).
  { unfold r, Run. fold callback.
    replace (Z.to_nat match opts with Some o => Retries o | None => 0 end)
      with budget by done.
    unfold a in *. simpl attempt in Hloop.
    destruct (oneRun bufsize child command callback env w) as [c0 w0].
    simpl in Hloop. rewrite Hloop.
    by destruct (attempt bufsize child n command callback env w). }
  rewrite Hr. simpl. repeat split.
  - apply attempt_log.
  - intros j Hj. apply Hfail. lia.
  - intros Hne. destruct Hstop as [->|Hz]; [done|].
    rewrite Nat.add_0_l in Hz. unfold ExitCode in *. simpl in Hne. done.
Qed.

(** [ExitCode] is -1 for a child that did not exit by itself and a number
    from 0 to 255 otherwise. *)
Lemma ExitStatus_range st : -1 <= ExitStatus st <= 255.
Proof.
  unfold ExitStatus. destruct (Exited st); [|lia].
  assert (H : Z.land (Z.shiftr st 8) 255 = Z.shiftr st 8 mod 256)
    by (apply (Z.land_ones (Z.shiftr st 8) 8); lia).
  rewrite H.
  pose proof (Z.mod_pos_bound (Z.shiftr st 8) 256 ltac:(lia)). lia.
Qed.

Lemma ExitCode_range c : -1 <= ExitCode c <= 255.
Proof.
  unfold ExitCode. destruct (Err c) as [[[st|]| | | | |]|];
    unfold UnknownExit; try lia. apply ExitStatus_range.
Qed.

Lemma File_Close_closed f s :
  fd f ∉ open_fds s -> File_Close f s = (Some ErrClosed, s).
Proof. intros H. unfold File_Close. by rewrite bool_decide_false. Qed.

Lemma os_Remove_missing n s :
  disk s !! n = None ->
  os_Remove n s = (Some (OtherError "remove: no such file or directory"), s).
Proof. intros H. unfold os_Remove. by rewrite H. Qed.

Lemma Cleanup_gone c s s1 f :
  Cleanup c s = Some s1 -> tmp c = Some f ->
  (fd f ∉ open_fds s1) /\ disk s1 !! Name f = None.
Proof.
  unfold Cleanup, cleanup, Close. intros H Hf. rewrite Hf in H.
  inversion H; subst; clear H.
  rewrite os_Remove_open, os_Remove_disk, !File_Close_disk.
  split; [|apply lookup_delete_eq].
  rewrite !File_Close_open. tauto.
Qed.

(** X2, [Cleanup] and the finalizer [cleanup].  [Cleanup] always
    returns, and calling it a second time changes nothing in the file
    system; for a result with a temp file, the finalizer [newCommand]
    registered, run after [Cleanup], changes nothing either: its [Close]
    and [Remove] fail and the errors are dropped. *)
Theorem Cleanup_again_changes_nothing c s :
  exists s1, Cleanup c s = Some s1 /\ Cleanup c s1 = Some s1 /\
             (is_Some (tmp c) -> cleanup c s1 = Some s1).
Proof.
  destruct (tmp c) as [f|] eqn:Hf.
  - destruct (Cleanup c s) as [s1|] eqn:Hc.
    2:{ unfold Cleanup, cleanup in Hc. by rewrite Hf in Hc. }
    destruct (Cleanup_gone c s s1 f Hc Hf) as [Hfd Hdisk].
    assert (Hfin : cleanup c s1 = Some s1).
    { unfold cleanup. rewrite Hf, File_Close_closed by done. simpl.
      by rewrite os_Remove_missing. }
    exists s1. split; [done|]. split; [|done].
    unfold Cleanup, Close. rewrite Hf, File_Close_closed by done. done.
  - exists s. unfold Cleanup. rewrite Hf. split; [done|]. split; [done|].
    by intros [? ?].
Qed.

(** X3, [oneRun] and the loop of [run].  When the stdout pipe cannot be
    made or the command cannot be started, [oneRun] returns a result with
    a nil reader, no temp file and that error, and leaves the file system
    alone.  Without [--stop-on-error] the drain of [run] then panics in
    [io.Copy] on the nil reader, whatever came before in its state; with
    [--stop-on-error] it breaks out of the loop before copying and writes
    nothing. *)
Theorem launch_failure_crashes_the_drain
  bufsize child command callback env w e args :
  let k := child (length (attempts w)) command env in
  pipe_err k = Some e \/ (pipe_err k = None /\ start_err k = Some e) ->
  let r := oneRun bufsize child command callback env w in
  fst r = newCommand None None command (Some e) /\
  wfs (snd r) = wfs w /\
  (Main.StopOnError args = false ->
   forall rest d, Main.run_loop args (fst r :: rest) d = Main.Panic) /\
  (Main.StopOnError args = true -> ExitCode (fst r) <> 0 ->
   forall rest d, exists d2,
     Main.run_loop args (fst r :: rest) d = Main.Break d2 /\
     Main.stdout d2 = Main.stdout d).
Proof.
  intros k Hk r.
  assert (Hr : r = (newCommand None None command (Some e),
                    {| wfs := wfs w; now := now w + elapsed k;
                       attempts := attempts w ++ [command] |})).
  { unfold r, oneRun. fold k. destruct Hk as [->|[-> ->]]; done. }
  rewrite Hr. simpl. split; [done|]. split; [done|]. split.
  - intros Hs rest d. unfold Main.run_body. rewrite Hs, andb_false_r.
    unfold read_all. simpl. done.
  - intros Hs Hne rest d. unfold Main.run_body. rewrite Hs, andb_true_r.
    apply Z.eqb_neq in Hne. rewrite Hne. simpl. eauto.
Qed.

Lemma launch_failure_crashes_the_drain_witness :
  let r := oneRun BufferSize Cases.no_pipe "ls" false [] Scenario.world0 in
  ExitCode (fst r) = 1 /\
  Main.run_loop (Cases.nline_args 1) [fst r] (Main.initial_Drain empty_FS)
    = Main.Panic.
Proof.
  intros r.
  destruct (launch_failure_crashes_the_drain BufferSize Cases.no_pipe "ls"
              false [] Scenario.world0 (OtherError "too many open files")
              (Cases.nline_args 1)) as (Hr & _ & Hp & _).
  - left. reflexivity.
  - split.
    + fold r in Hr. rewrite Hr. reflexivity.
    + apply Hp. reflexivity.
Defined.

Lemma Peek_large_res bufsize st :
  0 <= bufsize -> bufsize <= Z.of_nat (length (concat (chunks st))) ->
  exists pending,
    Peek bufsize st
      = (take (Z.to_nat bufsize) (concat (chunks st)), None, pending) /\
    concat pending = concat (chunks st).
Proof.
  intros H0 Hge. unfold Peek.
  destruct (bufsize <? 0) eqn:E; [apply Z.ltb_lt in E; lia|].
  destruct (peek_fill_spec (Z.to_nat bufsize) (Z.to_nat (Z.max bufsize 16))
              (chunks st) [] ltac:(lia))
    as (b & r & fl & Heq & Hcat & _ & Hl).
  rewrite Heq. simpl in Hl, Hcat.
  destruct Hl as [Hb ->]; [lia|].
  assert ((length b <? Z.to_nat bufsize)%nat = false) as ->
    by (apply Nat.ltb_ge; lia).
  exists (b :: r). split; [|simpl; exact Hcat].
  rewrite <- Hcat, take_app_le by done. done.
Qed.

(** X4, [oneRun].  When the output fills the buffer and
    [ioutil.TempFile] fails, the result carries that error, no temp file,
    and a reader over the first [BufferSize] bytes of the output only; the
    file system is unchanged. *)
Theorem no_temp_file_keeps_first_BufferSize_bytes
  bufsize child command callback env w e :
  let k := child (length (attempts w)) command env in
  pipe_err k = None -> start_err k = None -> tmp_file k = inl e ->
  0 <= bufsize -> bufsize <= Z.of_nat (length (stdout_of k)) ->
  let r := oneRun bufsize child command callback env w in
  fst r = newCommand
            (Some (BytesReader (take (Z.to_nat bufsize) (stdout_of k))))
            None command (Some e) /\
  wfs (snd r) = wfs w.
Proof.
  intros k Hp Hs Ht H0 Hge r. unfold r, oneRun. fold k. rewrite Hp, Hs.
  destruct (Peek_large_res bufsize (output k) H0 Hge) as (pending & -> & _).
  rewrite Ht. done.
Qed.

Lemma no_temp_file_keeps_first_BufferSize_bytes_witness :
  let r := oneRun 2 Cases.no_tmp "echo hi" false [] Scenario.world0 in
  Reader (fst r) = Some (BytesReader [x68; x69]) /\ tmp (fst r) = None.
Proof.
  intros r.
  destruct (no_temp_file_keeps_first_BufferSize_bytes 2 Cases.no_tmp
              "echo hi" false [] Scenario.world0
              (OtherError "no space left on device")) as [Hr _].
  - reflexivity.
  - reflexivity.
  - reflexivity.
  - lia.
  - vm_compute. discriminate.
  - fold r in Hr. rewrite Hr. split; reflexivity.
Defined.


(** ** The drain of run *)

Lemma run_loop_counter_range args results : forall d d2,
  0 <= Main.ExitCode d <= 255 ->
  Main.run_loop args results d = Main.Next d2 \/
  Main.run_loop args results d = Main.Break d2 ->
  0 <= Main.ExitCode d2 <= 255.
Proof.
  induction results as [|p rest IH]; intros d d2 Hd H; simpl in H.
  - destruct H as [H|H]; inversion H; by subst.
  - destruct (Main.run_body args p d) as [d1|d1|e|] eqn:Hb;
      [| |destruct H; done..].
    + apply (IH d1 d2); [|done].
      destruct (run_body_counter args p d d1 (or_introl Hb)) as [-> _].
      pose proof (ExitCode_range p). rewrite max_is_Zmax.
      destruct (ExitCode p =? 0); lia.
    + assert (d2 = d1) as -> by (destruct H as [H|H]; by inversion H).
      destruct (run_body_counter args p d d1 (or_intror Hb)) as [-> _].
      pose proof (ExitCode_range p). rewrite max_is_Zmax.
      destruct (ExitCode p =? 0); lia.
Qed.

(** X6, [main], [run] and [ExitCode].  When [main] gets to the end of
    [run], the status it exits with is between 0 and 255: [ExitCode] of a
    result is -1 or a byte, and the maximum with the counter, which starts
    at 0, drops the -1. *)
Theorem exit_status_between_0_and_255 cl isStdin create_log results s code out :
  Main.main cl isStdin create_log results s = Main.Exit code out ->
  0 <= code <= 255.
Proof.
  unfold Main.main.
  destruct (Main.check_modes _) as [msg|args]; [done|].
  destruct isStdin; simpl; [|intros H; inversion H; lia].
  destruct (if (Main.Log args =? "")%string then None else create_log);
    [done|].
  destruct (Main.run args (results args) s) as [d|d|e|] eqn:Hr; try done;
    intros H; inversion H; subst;
    eapply (run_loop_counter_range args (results args) (Main.initial_Drain s));
    simpl; eauto; lia.
Qed.

Lemma exit_status_between_0_and_255_witness :
  Main.main (Scenario.plain "{}") true None
    (fun _ => Scenario.mixed_results) empty_FS = Main.Exit 3 [] /\
  0 <= 3 <= 255.
Proof.
  split; [vm_compute; reflexivity|].
  apply (exit_status_between_0_and_255 (Scenario.plain "{}") true None
           (fun _ => Scenario.mixed_results) empty_FS 3 []).
  vm_compute. reflexivity.
Defined.

(** The failures the drain counts. *)
Lemma run_loop_fails args results : forall d d2,
  Main.run_loop args results d = Main.Next d2 \/
  Main.run_loop args results d = Main.Break d2 ->
  Main.fails d2 =
    Main.fails d +
    Z.of_nat (length (filter (fun p => ExitCode p <> 0)
                        (Main.observed args results))).
Proof.
  induction results as [|p rest IH]; intros d d2 H; simpl in H.
  - destruct H as [H|H]; inversion H; subst. simpl. lia.
  - unfold Main.run_body in H. simpl.
    destruct (ExitCode p =? 0) eqn:E; simpl in *.
    + apply Z.eqb_eq in E.
      destruct (read_all p (Main.files d)) as [[e|out]|];
        [destruct H; done| |destruct H; done].
      destruct (Cleanup p (Main.files d)); [|destruct H; done].
      rewrite (IH _ _ H). simpl.
      rewrite filter_cons_False by (intros Hn; by apply Hn). lia.
    + apply Z.eqb_neq in E. destruct (Main.StopOnError args); simpl in *.
      * assert (Hd : d2 = {| Main.ExitCode :=
                              Main.max (Main.ExitCode d) (ExitCode p);
                            Main.fails := Main.fails d + 1;
                            Main.stdout := Main.stdout d;
                            Main.files := Main.files d |})
          by (destruct H as [H|H]; by inversion H).
        rewrite Hd. simpl. rewrite filter_cons_True by done. simpl. lia.
      * destruct (read_all p (Main.files d)) as [[e|out]|];
          [destruct H; done| |destruct H; done].
        destruct (Cleanup p (Main.files d)); [|destruct H; done].
        rewrite (IH _ _ H). simpl.
        rewrite filter_cons_True by done. simpl. lia.
Qed.

(** X7, the loop of [run].  When the loop ends, normally or by the break
    of [--stop-on-error], [fails] is the number of results seen with a
    non-zero exit code; if it is 0 the worst exit code is 0 too. *)
Theorem fails_counts_failed_commands args results s d :
  Main.run args results s = Main.Next d \/
  Main.run args results s = Main.Break d ->
  Main.fails d =
    Z.of_nat (length (filter (fun p => ExitCode p <> 0)
                        (Main.observed args results))) /\
  (Main.fails d = 0 -> Main.ExitCode d = 0).
Proof.
  intros H. unfold Main.run in H.
  pose proof (run_loop_fails args results _ _ H) as Hf. simpl in Hf.
  split; [done|]. intros H0.
  rewrite (run_loop_counter args results (Main.initial_Drain s) d
             ltac:(simpl; lia) H). simpl.
  rewrite H0 in Hf.
  assert (Hnil : filter (fun p => ExitCode p <> 0)
                   (Main.observed args results) = [])
    by (apply length_zero_iff_nil; lia).
  clear -Hnil. induction (Main.observed args results) as [|p l IH]; [done|].
  destruct (decide (ExitCode p = 0)) as [Hz|Hnz].
  - rewrite filter_cons_False in Hnil by (intros Hn; by apply Hn).
    simpl. rewrite Hz. simpl. by apply IH.
  - by rewrite filter_cons_True in Hnil by done.
Qed.

Lemma fails_counts_failed_commands_witness :
  exists d,
    Main.run (Cases.nline_args 1) Scenario.mixed_results empty_FS
      = Main.Next d /\
    Main.fails d = 2.
Proof.
  destruct (Main.run (Cases.nline_args 1) Scenario.mixed_results empty_FS)
    as [d| | |] eqn:E; try (vm_compute in E; discriminate).
  exists d. split; [reflexivity|].
  destruct (fails_counts_failed_commands (Cases.nline_args 1)
              Scenario.mixed_results empty_FS d (or_introl E)) as [H _].
  rewrite H. vm_compute. reflexivity.
Defined.

Lemma Cleanup_only_removes c s s1 :
  Cleanup c s = Some s1 ->
  (forall n, disk s !! n = None -> disk s1 !! n = None) /\
  (forall j, j ∉ open_fds s -> j ∉ open_fds s1).
Proof.
  unfold Cleanup, cleanup, Close. destruct (tmp c) as [f|].
  - intros H; inversion H; subst; clear H.
    rewrite os_Remove_open, os_Remove_disk, !File_Close_disk. split.
    + intros n Hn. destruct (decide (n = Name f)) as [->|Hne].
      * apply lookup_delete_eq.
      * by rewrite lookup_delete_ne.
    + intros j Hj. rewrite !File_Close_open. tauto.
  - intros H; inversion H; by subst.
Qed.

Lemma run_body_Next_inv args p d d2 :
  Main.run_body args p d = Main.Next d2 ->
  exists out, read_all p (Main.files d) = Some (inr out) /\
    Cleanup p (Main.files d) = Some (Main.files d2) /\
    Main.stdout d2 = Main.stdout d ++ out.
Proof.
  unfold Main.run_body.
  destruct (negb (ExitCode p =? 0) && Main.StopOnError args); [done|].
  destruct (ExitCode p =? 0); simpl;
    (destruct (read_all p (Main.files d)) as [[e|out]|]; try done;
     destruct (Cleanup p (Main.files d)) as [s1|]; [|done];
     intros H; inversion H; subst; simpl; eauto).
Qed.

(** X8, the loop of [run] with [Cleanup].  After a loop that ran to the
    end, the temp file of every result is closed and gone from the disk,
    and no name that was free before is taken. *)
Theorem drain_releases_temp_files args results : forall d d2,
  Main.run_loop args results d = Main.Next d2 ->
  (forall p f, p ∈ results -> tmp p = Some f ->
     disk (Main.files d2) !! Name f = None /\
     fd f ∉ open_fds (Main.files d2)) /\
  (forall n, disk (Main.files d) !! n = None ->
     disk (Main.files d2) !! n = None).
Proof.
  induction results as [|p rest IH]; intros d d2 H; simpl in H.
  - inversion H; subst. split; [|done]. intros p f Hp. by apply elem_of_nil in Hp.
  - destruct (Main.run_body args p d) as [d1| | |] eqn:Hb; try done.
    destruct (run_body_Next_inv _ _ _ _ Hb) as (out & _ & Hc & _).
    destruct (IH d1 d2 H) as [Hrest Hmono].
    destruct (Cleanup_only_removes _ _ _ Hc) as [Hdisk Hopen].
    split.
    + intros q f [->|Hq]%elem_of_cons Hf; [|by eapply Hrest].
      destruct (Cleanup_gone _ _ _ _ Hc Hf) as [Hfd Hgone].
      split; [by apply Hmono|].
      clear -H Hfd. revert d1 H Hfd.
      induction rest as [|p' rest' IH']; intros d1 H Hfd; simpl in H.
      * by inversion H; subst.
      * destruct (Main.run_body args p' d1) as [d1'| | |] eqn:Hb'; try done.
        destruct (run_body_Next_inv _ _ _ _ Hb') as (out' & _ & Hc' & _).
        apply (IH' d1' H).
        by apply (Cleanup_only_removes _ _ _ Hc').
    + intros n Hn. apply Hmono. by apply Hdisk.
Qed.

Lemma drain_releases_temp_files_witness :
  let r := oneRun 2 Scenario.echo_hi "echo hi" false [] Scenario.world0 in
  exists d2,
    Main.run_loop (Main.MustParse Main.initial_Params (Scenario.plain "{}"))
      [fst r] (Main.initial_Drain (wfs (snd r))) = Main.Next d2 /\
    Main.stdout d2 = Scenario.hi /\
    disk (Main.files d2) !! "gargs.4242.0001" = None.
Proof.
  intros r. eexists. split; [vm_compute; reflexivity|].
  split; [reflexivity|].
  refine (proj1 (proj1 (drain_releases_temp_files
            (Main.MustParse Main.initial_Params (Scenario.plain "{}"))
            [fst r] (Main.initial_Drain (wfs (snd r))) _ _)
            (fst r) {| Name := "gargs.4242.0001"; fd := 3 |} _ _)).
  - vm_compute. reflexivity.
  - apply list_elem_of_singleton. reflexivity.
  - vm_compute. reflexivity.
Defined.

(** X9, the loop of [run].  The loop breaks only with
    [--stop-on-error], and at the first failed result: the results before
    it were drained normally, nothing of the failed one is written, its
    temp file is not released, it is counted in [fails] and in the exit
    code, and the later results are not looked at. *)
Theorem stop_on_error_breaks_at_first_failure args results : forall d d2,
  Main.run_loop args results d = Main.Break d2 ->
  Main.StopOnError args = true /\
  exists before p later d1,
    results = before ++ p :: later /\
    Main.run_loop args before d = Main.Next d1 /\
    ExitCode p <> 0 /\
    Main.stdout d2 = Main.stdout d1 /\
    Main.files d2 = Main.files d1 /\
    Main.fails d2 = Main.fails d1 + 1 /\
    Main.ExitCode d2 = Main.max (Main.ExitCode d1) (ExitCode p).
Proof.
  induction results as [|p rest IH]; intros d d2 H; simpl in H; [done|].
  destruct (Main.run_body args p d) as [d1|d1|e|] eqn:Hb; try done.
  - destruct (IH d1 d2 H) as (Hs & before & q & later & d1' & -> & Hrun & Hq).
    split; [done|]. exists (p :: before), q, later, d1'.
    split; [done|]. split; [|done]. simpl. by rewrite Hb.
  - inversion H; subst; clear H.
    pose proof (run_body_Break _ _ _ _ Hb) as Hstop.
    apply andb_prop in Hstop as [Hne Hs].
    split; [done|]. exists [], p, rest, d. split; [done|]. split; [done|].
    unfold Main.run_body in Hb. rewrite Hne, Hs in Hb. simpl in Hb.
    apply negb_true_iff in Hne. rewrite Hne in Hb.
    inversion Hb; subst; simpl. apply Z.eqb_neq in Hne. done.
Qed.

Lemma stop_on_error_breaks_at_first_failure_witness :
  exists before p later d1 d2,
    Scenario.mixed_results = before ++ p :: later /\
    Main.run_loop Cases.stop_args Scenario.mixed_results
      (Main.initial_Drain empty_FS) = Main.Break d2 /\
    Main.run_loop Cases.stop_args before (Main.initial_Drain empty_FS)
      = Main.Next d1 /\
    Main.fails d2 = Main.fails d1 + 1.
Proof.
  destruct (Main.run_loop Cases.stop_args Scenario.mixed_results
              (Main.initial_Drain empty_FS)) as [|d2| |] eqn:E;
    try (vm_compute in E; discriminate).
  destruct (stop_on_error_breaks_at_first_failure Cases.stop_args
              Scenario.mixed_results (Main.initial_Drain empty_FS) d2 E)
    as (_ & before & p & later & d1 & H1 & H2 & _ & _ & _ & H3 & _).
  exists before, p, later, d1, d2. repeat split; assumption.
Defined.

(** X10, the loop of [run].  Without [--stop-on-error], results held in
    memory are drained to the end whatever their exit codes: stdout gets
    their outputs one after the other, in the order received, and the file
    system is untouched. *)
Theorem drain_writes_outputs_in_order args results outs s :
  Forall2 in_memory results outs ->
  Main.StopOnError args = false ->
  exists d, Main.run args results s = Main.Next d /\
            Main.stdout d = concat outs /\ Main.files d = s.
Proof.
  intros Hall Hs. unfold Main.run.
  assert (forall d, exists d2,
            Main.run_loop args results d = Main.Next d2 /\
            Main.stdout d2 = Main.stdout d ++ concat outs /\
            Main.files d2 = Main.files d) as Hgen.
  { induction Hall as [|p out rest outs' [Hr Ht] _ IH]; intros d.
    - exists d. simpl. by rewrite app_nil_r.
    - simpl. unfold Main.run_body. rewrite Hs, andb_false_r.
      unfold read_all, Cleanup. rewrite Hr, Ht.
      match goal with |- context [Main.run_loop args rest ?d1] =>
        destruct (IH d1) as (d2 & -> & Hout & Hf) end.
      exists d2. split; [done|]. rewrite Hout, Hf. simpl.
      destruct (ExitCode p =? 0); simpl; by rewrite <- app_assoc. }
  destruct (Hgen (Main.initial_Drain s)) as (d & Hd & Hout & Hf).
  exists d. simpl in *. done.
Qed.

Lemma drain_writes_outputs_in_order_witness :
  exists d,
    Main.run (Cases.nline_args 1)
      [Cases.said [x61; x0a]; Cases.said [x62; x0a]] empty_FS = Main.Next d /\
    Main.stdout d = [x61; x0a; x62; x0a].
Proof.
  destruct (drain_writes_outputs_in_order (Cases.nline_args 1)
              [Cases.said [x61; x0a]; Cases.said [x62; x0a]]
              [[x61; x0a]; [x62; x0a]] empty_FS) as (d & Hd & Hout & _).
  - repeat constructor.
  - reflexivity.
  - exists d. split; [exact Hd|exact Hout].
Defined.

(** ** Remote hosts *)

Lemma int32_id z : - 2 ^ 31 <= z < 2 ^ 31 -> Remote.int32 z = z.
Proof.
  intros H. unfold Remote.int32.
  rewrite Z.mod_small; lia.
Qed.

Lemma int32_add_sub z : Remote.int32 (Remote.int32 (z + 1) + -1) = Remote.int32 z.
Proof.
  unfold Remote.int32.
  replace ((z + 1 + 2 ^ 31) mod 2 ^ 32 - 2 ^ 31 + -1 + 2 ^ 31)
    with ((z + 1 + 2 ^ 31) mod 2 ^ 32 - 1) by lia.
  rewrite Zminus_mod_idemp_l. f_equal. f_equal. lia.
Qed.

Lemma first_below_Some ph st rs r :
  Remote.first_below ph st rs = Some r <->
  exists before after, rs = before ++ r :: after /\
    Remote.count r st < ph /\
    Forall (fun r' => ph <= Remote.count r' st) before.
Proof.
  induction rs as [|r0 rs IH]; simpl.
  - split; [done|]. intros (b & a & H & _). by destruct b.
  - destruct (Remote.count r0 st <? ph) eqn:E.
    + apply Z.ltb_lt in E. split.
      * intros [= ->]. exists [], rs. repeat split; [done|constructor].
      * intros ([|r1 b] & a & H & Hlt & Hall); simpl in H.
        -- by inversion H.
        -- inversion H; subst. apply Forall_cons in Hall as [? _]. lia.
    + apply Z.ltb_ge in E. rewrite IH. split.
      * intros (b & a & -> & Hlt & Hall). exists (r0 :: b), a.
        repeat split; [done|]. by constructor.
      * intros ([|r1 b] & a & H & Hlt & Hall); simpl in H.
        -- inversion H; subst. lia.
        -- inversion H; subst. apply Forall_cons in Hall as [_ Hall].
           eauto.
Qed.

Lemma first_below_None ph st rs :
  Remote.first_below ph st rs = None <->
  Forall (fun r => ph <= Remote.count r st) rs.
Proof.
  induction rs as [|r0 rs IH]; simpl; [by split|].
  destruct (Remote.count r0 st <? ph) eqn:E.
  - apply Z.ltb_lt in E. split; [done|].
    intros [? _]%Forall_cons. lia.
  - apply Z.ltb_ge in E. rewrite IH, Forall_cons. tauto.
Qed.

(** X11, [getHost] and [perHost].  [getHost] returns the first remote
    whose counter is below [int32(GOMAXPROCS / (len(Remotes) + 1))], all the
    remotes before it being at or above that share, and nil exactly when
    every remote is at or above it.  In particular, with no more
    processors than remotes the share is 0 and, the counters not being
    negative, no remote is ever chosen. *)
Theorem getHost_first_remote_below_share gomaxprocs Remotes st :
  let ph := Remote.int32 (Remote.perHost gomaxprocs Remotes) in
  (forall r, Remote.getHost gomaxprocs Remotes st = Some r <->
     exists before after, Remotes = before ++ r :: after /\
       Remote.count r st < ph /\
       Forall (fun r' => ph <= Remote.count r' st) before) /\
  (Remote.getHost gomaxprocs Remotes st = None <->
     Forall (fun r => ph <= Remote.count r st) Remotes) /\
  (0 <= gomaxprocs <= Z.of_nat (length Remotes) ->
   Forall (fun r => 0 <= Remote.count r st) Remotes ->
   Remote.getHost gomaxprocs Remotes st = None).
Proof.
  intros ph.
  assert (Hnone : Remote.getHost gomaxprocs Remotes st = None <->
                  Forall (fun r => ph <= Remote.count r st) Remotes).
  { unfold Remote.getHost. destruct Remotes as [|r0 rs]; [by split|].
    apply first_below_None. }
  split; [|split; [done|]].
  - intros r. unfold Remote.getHost. destruct Remotes as [|r0 rs].
    + split; [done|]. intros (b & a & H & _). by destruct b.
    + apply first_below_Some.
  - intros HP Hpos. apply Hnone.
    assert (ph = 0) as ->.
    { unfold ph, Remote.perHost. rewrite Z.quot_small by lia.
      by apply int32_id. }
    done.
Qed.

Lemma getHost_first_remote_below_share_witness :
  Remote.getHost 2 [Cases.host_a; Cases.host_b]
    (<[0%nat := 0]> (<[1%nat := 0]> ∅)) = None /\
  Remote.getHost 6 [Cases.host_a; Cases.host_b]
    (<[0%nat := 2]> (<[1%nat := 1]> ∅)) = Some Cases.host_b.
Proof.
  split.
  - apply (getHost_first_remote_below_share 2 [Cases.host_a; Cases.host_b]).
    + simpl. lia.
    + repeat constructor; vm_compute; discriminate.
  - vm_compute. reflexivity.
Defined.

(** X12, [increment] and [decrement] as [Run] pairs them.  With the
    counters in the range of [int32], [decrement] after [increment] of a
    host leaves every counter as it was, wrap-around included. *)
Theorem increment_then_decrement_restores r st :
  (forall r', - 2 ^ 31 <= Remote.count r' st < 2 ^ 31) ->
  forall r',
    Remote.count r' (Remote.decrement r (Remote.increment r st))
      = Remote.count r' st.
Proof.
  intros Hrange r'. unfold Remote.decrement, Remote.increment, Remote.count.
  rewrite lookup_total_insert_eq.
  destruct (decide (Remote.counter r = Remote.counter r')) as [Heq|Hne].
  - rewrite <- Heq, lookup_total_insert_eq, int32_add_sub.
    apply int32_id. apply (Hrange r).
  - by rewrite !lookup_total_insert_ne.
Qed.

Lemma increment_then_decrement_restores_witness :
  Remote.count Cases.host_a
    (Remote.decrement Cases.host_a
       (Remote.increment Cases.host_a (<[0%nat := 2 ^ 31 - 1]> ∅)))
  = 2 ^ 31 - 1.
Proof.
  rewrite (increment_then_decrement_restores Cases.host_a
             (<[0%nat := 2 ^ 31 - 1]> ∅)).
  - vm_compute. reflexivity.
  - intros r'. unfold Remote.count.
    destruct (decide (Remote.counter r' = 0%nat)) as [->|Hne].
    + rewrite lookup_total_insert_eq. lia.
    + rewrite lookup_total_insert_ne by done.
      rewrite lookup_total_empty. vm_compute. split; [discriminate|reflexivity].
Defined.

(** ** fillTmplMap and genCommands *)

Import Generate.

(** *** fillTmplMap *)

Lemma pretty_N_go_ne_Line x s : s <> "Line"%string -> pretty_N_go x s <> "Line"%string.
Proof.
  revert s. induction (N.lt_wf_0 x) as [x _ IH]; intros s ?.
  assert (x = 0 ∨ 0 < x)%N as [->|?] by lia.
  - by rewrite pretty_N_go_0.
  - rewrite pretty_N_go_step by done. apply IH.
    { by apply N.div_lt. }
    unfold pretty_N_char. by repeat case_match.
Qed.

Lemma FormatInt_ne_Line i : FormatInt (Z.of_nat i) <> "Line"%string.
Proof.
  unfold FormatInt, pretty, pretty_Z.
  destruct (Z.of_nat i) as [|p|p] eqn:E; [done| |lia].
  unfold pretty, pretty_positive, pretty, pretty_N.
  case_decide; [done|]. by apply pretty_N_go_ne_Line.
Qed.

Lemma FormatInt_inj i j : FormatInt i = FormatInt j -> i = j.
Proof. apply (inj pretty). Qed.

Lemma fill_lookup_index toks : forall i m j,
  fill i toks m !! FormatInt (Z.of_nat j) =
    if decide (i <= j < i + length toks)%nat then toks !! (j - i)%nat
    else m !! FormatInt (Z.of_nat j).
Proof.
  induction toks as [|t rest IH]; intros i m j; simpl.
  - case_decide; [lia|done].
  - rewrite IH. repeat case_decide; try lia.
    + replace (j - i)%nat with (S (j - S i)) by lia. done.
    + assert (j = i) as -> by lia. rewrite Nat.sub_diag. simpl.
      apply lookup_insert_eq.
    + rewrite lookup_insert_ne; [done|].
      intros Heq%FormatInt_inj. lia.
Qed.

Lemma fill_lookup_other toks : forall i m key,
  (forall j, (i <= j < i + length toks)%nat -> key <> FormatInt (Z.of_nat j)) ->
  fill i toks m !! key = m !! key.
Proof.
  induction toks as [|t rest IH]; intros i m key Hkey; simpl; [done|].
  rewrite IH.
  - rewrite lookup_insert_ne; [done|]. intros Heq.
    apply (Hkey i); [simpl; lia|done].
  - intros j Hj. apply Hkey. simpl. lia.
Qed.

(** X13, [fillTmplMap].  The map binds [Line] to the line, the decimal
    numeral of each index [j] below [len(toks)] to token [j], and nothing
    else: no index collides with another one or with [Line]. *)
Theorem fillTmplMap_bindings toks line :
  fillTmplMap toks line !! "Line"%string = Some line /\
  (forall j : nat,
     fillTmplMap toks line !! FormatInt (Z.of_nat j) = toks !! j) /\
  (forall key,
     key <> "Line"%string ->
     (forall j, (j < length toks)%nat -> key <> FormatInt (Z.of_nat j)) ->
     fillTmplMap toks line !! key = None).
Proof.
  unfold fillTmplMap. split; [apply lookup_insert_eq|]. split.
  - intros j. rewrite lookup_insert_ne by (apply not_eq_sym, FormatInt_ne_Line).
    rewrite fill_lookup_index. case_decide.
    + by rewrite Nat.sub_0_r.
    + rewrite lookup_empty. symmetry. apply lookup_ge_None. lia.
  - intros key Hline Hkey. rewrite lookup_insert_ne by done.
    rewrite fill_lookup_other; [apply lookup_empty|].
    intros j Hj. apply Hkey. lia.
Qed.

(** *** genCommands *)

Lemma split_loop Split Execute fs args records : forall l,
  Main.Sep args <> ""%string -> 1 <= Main.Nlines args ->
  Main.DryRun args = false -> lines l = [] ->
  let l2 := foldl (scan_body Split Execute fs args) l records in
  lines l2 = [] /\ printed (out l2) = printed (out l) /\
  sent (out l2) =
    sent (out l) ++ map (split_command Split Execute (Main.Sep args)) records.
Proof.
  induction records as [|r rest IH]; intros l Hsep HN Hdry Hl; simpl.
  - by rewrite app_nil_r.
  - apply String.eqb_neq in Hsep as Hsep'.
    assert (Hb : scan_body Split Execute fs args l r =
                 {| lines := []; buf := split_command Split Execute (Main.Sep args) r;
                    out := {| printed := printed (out l);
                              sent := sent (out l) ++
                                [split_command Split Execute (Main.Sep args) r] |} |}).
    { unfold scan_body, emit, handleCommand. rewrite Hsep', Hdry, Hl.
      cbn. change (Z.of_nat 0) with 0.
      assert ((0 >=? Main.Nlines args) = false) as ->
        by (rewrite Z.geb_leb; apply Z.leb_gt; lia). done. }
    rewrite Hb.
    match goal with |- context [foldl _ ?l1 rest] =>
      destruct (IH l1 Hsep HN Hdry eq_refl) as (H1 & H2 & H3) end.
    simpl in *. rewrite H1, H2, H3, <- app_assoc. done.
Qed.

Lemma split_loop_nonpositive Split Execute fs args records : forall l,
  Main.Sep args <> ""%string -> Main.Nlines args <= 0 ->
  Main.DryRun args = false -> lines l = [] ->
  let l2 := foldl (scan_body Split Execute fs args) l records in
  lines l2 = [] /\ printed (out l2) = printed (out l) /\
  sent (out l2) =
    sent (out l) ++
    concat (map (fun r => [split_command Split Execute (Main.Sep args) r;
                           split_command Split Execute (Main.Sep args) r +:+
                           group_command Execute fs []]) records).
Proof.
  induction records as [|r rest IH]; intros l Hsep HN Hdry Hl; simpl.
  - by rewrite app_nil_r.
  - apply String.eqb_neq in Hsep as Hsep'.
    assert (Hb : scan_body Split Execute fs args l r =
                 {| lines := [];
                    buf := split_command Split Execute (Main.Sep args) r +:+ group_command Execute fs [];
                    out := {| printed := printed (out l);
                              sent := (sent (out l) ++
                                [split_command Split Execute (Main.Sep args) r]) ++
                                [split_command Split Execute (Main.Sep args) r +:+
                                 group_command Execute fs []] |} |}).
    { unfold scan_body, emit, handleCommand. rewrite Hsep', Hdry, Hl.
      cbn. change (Z.of_nat 0) with 0.
      assert ((0 >=? Main.Nlines args) = true) as ->
        by (rewrite Z.geb_leb; apply Z.leb_le; lia). done. }
    rewrite Hb.
    match goal with |- context [foldl _ ?l1 rest] =>
      destruct (IH l1 Hsep HN Hdry eq_refl) as (H1 & H2 & H3) end.
    simpl in *. rewrite H1, H2, H3, <- !app_assoc. done.
Qed.

Lemma append_empty_l s : ("" +:+ s)%string = s.
Proof. done. Qed.

(** The N-line loop: [gs] are the groups emitted so far. *)
Lemma nline_loop Split Execute fs args records : forall l gs,
  Main.Sep args = ""%string -> 0 <= Main.Nlines args ->
  Main.DryRun args = false ->
  let N := Z.to_nat (Z.max 1 (Main.Nlines args)) in
  (length (lines l) < N)%nat -> (lines l <> [] -> buf l = ""%string) ->
  printed (out l) = [] -> sent (out l) = map (group_command Execute fs) gs ->
  Forall (fun g => length g = N) gs ->
  let l2 := foldl (scan_body Split Execute fs args) l records in
  exists gs2,
    (length (lines l2) < N)%nat /\ (lines l2 <> [] -> buf l2 = ""%string) /\
    printed (out l2) = [] /\ sent (out l2) = map (group_command Execute fs) gs2 /\
    Forall (fun g => length g = N) gs2 /\
    concat gs2 ++ lines l2 = concat gs ++ lines l ++ records.
Proof.
  induction records as [|r rest IH];
    intros l gs Hsep HN Hdry N Hlen Hbuf Hpr Hsent Hfull; simpl.
  - exists gs. rewrite app_nil_r. done.
  - assert (Hsep' : (Main.Sep args =? "")%string = true)
      by (by apply String.eqb_eq).
    destruct (decide (S (length (lines l)) = N)) as [Hfill|Hnot].
    + assert (Hb : scan_body Split Execute fs args l r =
                   {| lines := [];
                      buf := group_command Execute fs (lines l ++ [r]);
                      out := {| printed := [];
                                sent := map (group_command Execute fs)
                                          (gs ++ [lines l ++ [r]]) |} |}).
      { unfold scan_body, emit, handleCommand. rewrite Hsep', Hdry. cbn.
        assert ((Z.of_nat (length (lines l ++ [r])) >=? Main.Nlines args)
                = true) as ->.
        { rewrite Z.geb_leb. apply Z.leb_le. rewrite length_app. simpl.
          unfold N in *. lia. }
        rewrite append_empty_l, Hpr, Hsent, map_app. done. }
      rewrite Hb.
      match goal with |- context [foldl _ ?l1 rest] =>
        destruct (IH l1 (gs ++ [lines l ++ [r]]) Hsep HN Hdry)
          as (gs2 & H1 & H2 & H3 & H4 & H5 & H6) end; simpl; try done.
      * unfold N. lia.
      * apply Forall_app. split; [done|]. constructor; [|done].
        rewrite length_app. simpl. lia.
      * exists gs2. repeat split; try done.
        rewrite H6. simpl. rewrite concat_app. simpl.
        by rewrite !app_nil_r, <- !app_assoc.
    + assert (Hb : scan_body Split Execute fs args l r =
                   {| lines := lines l ++ [r]; buf := ""; out := out l |}).
      { unfold scan_body. rewrite Hsep'. cbn.
        assert ((Z.of_nat (length (lines l ++ [r])) >=? Main.Nlines args)
                = false) as ->; [|done].
        rewrite Z.geb_leb. apply Z.leb_gt. rewrite length_app. simpl.
        unfold N in *. lia. }
      rewrite Hb.
      match goal with |- context [foldl _ ?l1 rest] =>
        destruct (IH l1 gs Hsep HN Hdry)
          as (gs2 & H1 & H2 & H3 & H4 & H5 & H6) end; simpl; try done.
      * rewrite length_app. simpl. fold N. lia.
      * exists gs2. repeat split; try done.
        rewrite H6. simpl. by rewrite <- !app_assoc.
Qed.

(** X14, [genCommands] and [handleCommand].  In split mode with
    [Nlines] at least 1, one command is sent per record, in order, each the
    expansion of the template for the tokens of that record; nothing is
    printed. *)
Theorem split_mode_one_command_per_record Split Execute fs args records :
  Main.Sep args <> ""%string -> 1 <= Main.Nlines args ->
  Main.DryRun args = false ->
  genCommands Split Execute fs args records =
    Some {| printed := [];
            sent := map (split_command Split Execute (Main.Sep args))
                      records |}.
Proof.
  intros Hsep HN Hdry. unfold genCommands.
  apply String.eqb_neq in Hsep as Hsep'. rewrite Hsep'. simpl.
  match goal with |- context [foldl _ ?l0 records] =>
    destruct (split_loop Split Execute fs args records l0 Hsep HN Hdry
                eq_refl) as (H1 & H2 & H3);
    destruct (foldl (scan_body Split Execute fs args) l0 records)
      as [ls b [pr se]] end.
  simpl in *. subst. done.
Qed.

Lemma split_mode_one_command_per_record_witness :
  genCommands Cases.whole Cases.the_line " " (Cases.split_args 1)
    ["a,b"; "c"]%string
  = Some {| printed := [];
            sent := map (split_command Cases.whole Cases.the_line ",")
                      ["a,b"; "c"]%string |}.
Proof.
  apply (split_mode_one_command_per_record Cases.whole Cases.the_line " "
           (Cases.split_args 1)).
  - discriminate.
  - simpl. lia.
  - reflexivity.
Defined.

(** X15, [genCommands].  In split mode with [Nlines] zero or negative
    (which [main] lets through), the test [len(lines) >= args.Nlines] holds
    for the empty [lines], and every record gives two commands: its own,
    and its own followed by the expansion of the template for no tokens
    and an empty line, appended to the buffer that was not reset. *)
Theorem split_mode_nonpositive_Nlines Split Execute fs args records :
  Main.Sep args <> ""%string -> Main.Nlines args <= 0 ->
  Main.DryRun args = false ->
  genCommands Split Execute fs args records =
    Some {| printed := [];
            sent := concat (map (fun r =>
                      [split_command Split Execute (Main.Sep args) r;
                       split_command Split Execute (Main.Sep args) r +:+
                       group_command Execute fs []]) records) |}.
Proof.
  intros Hsep HN Hdry. unfold genCommands.
  apply String.eqb_neq in Hsep as Hsep'. rewrite Hsep'. simpl.
  match goal with |- context [foldl _ ?l0 records] =>
    destruct (split_loop_nonpositive Split Execute fs args records l0 Hsep HN
                Hdry eq_refl) as (H1 & H2 & H3);
    destruct (foldl (scan_body Split Execute fs args) l0 records)
      as [ls b [pr se]] end.
  simpl in *. subst. done.
Qed.

Lemma split_mode_nonpositive_Nlines_witness :
  exists second,
    genCommands Cases.whole Cases.the_line " " (Cases.split_args 0)
      ["a,b"]%string
    = Some {| printed := [];
              sent := [split_command Cases.whole Cases.the_line "," "a,b";
                       second] |}.
Proof.
  eexists.
  apply (split_mode_nonpositive_Nlines Cases.whole Cases.the_line " "
           (Cases.split_args 0) ["a,b"]%string).
  - discriminate.
  - simpl. lia.
  - reflexivity.
Defined.

(** X16, [genCommands].  In N-line mode the records are cut into
    consecutive groups of [max 1 Nlines] records, the last one possibly
    shorter and none empty, and one command is sent per group, in
    order. *)
Theorem nline_mode_groups_records Split Execute fs args records :
  Main.Sep args = ""%string -> 0 <= Main.Nlines args ->
  Main.DryRun args = false ->
  let N := Z.to_nat (Z.max 1 (Main.Nlines args)) in
  exists groups,
    genCommands Split Execute fs args records =
      Some {| printed := [];
              sent := map (group_command Execute fs) groups |} /\
    concat groups = records /\
    Forall (fun g => (0 < length g <= N)%nat) groups /\
    (forall i g, groups !! i = Some g -> (S i < length groups)%nat ->
                 length g = N).
Proof.
  intros Hsep HN Hdry N. unfold genCommands.
  assert ((Main.Sep args =? "")%string = true) as ->
    by (by apply String.eqb_eq).
  assert ((Main.Nlines args <? 0) = false) as -> by (apply Z.ltb_ge; lia).
  simpl.
  match goal with |- context [foldl _ ?l0 records] =>
    destruct (nline_loop Split Execute fs args records l0 [] Hsep HN Hdry)
      as (gs & H1 & H2 & H3 & H4 & H5 & H6);
    [simpl; lia|done|done|done|done|];
    destruct (foldl (scan_body Split Execute fs args) l0 records)
      as [ls b [pr se]] end.
  simpl in *. subst pr se. fold N in H1, H5.
  destruct ls as [|x ls]; simpl.
  - exists gs. rewrite app_nil_r in H6. repeat split; try done.
    + eapply Forall_impl; [exact H5|]. simpl. intros g ->. unfold N. lia.
    + intros i g Hg _. rewrite Forall_forall in H5. apply H5.
      by eapply list_elem_of_lookup_2.
  - exists (gs ++ [x :: ls]). repeat split.
    + unfold emit, handleCommand. rewrite Hdry. simpl.
      rewrite H2 by done. rewrite append_empty_l, map_app. done.
    + rewrite concat_app. simpl. by rewrite app_nil_r.
    + apply Forall_app. split.
      * eapply Forall_impl; [exact H5|]. simpl. intros g ->. unfold N. lia.
      * constructor; [|done]. simpl in *. lia.
    + intros i g Hg Hi. rewrite length_app in Hi. simpl in Hi.
      rewrite lookup_app_l in Hg by lia.
      rewrite Forall_forall in H5. apply H5.
      by eapply list_elem_of_lookup_2.
Qed.

Lemma nline_mode_groups_records_witness :
  exists groups,
    genCommands Cases.whole Cases.the_line " " (Cases.nline_args 2)
      ["a"; "b"; "c"]%string
    = Some {| printed := [];
              sent := map (group_command Cases.the_line " ") groups |} /\
    concat groups = ["a"; "b"; "c"]%string.
Proof.
  destruct (nline_mode_groups_records Cases.whole Cases.the_line " "
              (Cases.nline_args 2) ["a"; "b"; "c"]%string)
    as (groups & H1 & H2 & _).
  - reflexivity.
  - simpl. lia.
  - reflexivity.
  - exists groups. split; [exact H1|exact H2].
Defined.

Lemma emit_dry Execute args toks line l l' keep :
  Main.DryRun args = false -> dry_of l l' ->
  dry_of (emit Execute args toks line l keep)
         (emit Execute (dry_run args) toks line l' keep).
Proof.
  intros Hdry (H1 & H2 & H3 & H4 & H5).
  unfold dry_of, emit, handleCommand. rewrite Hdry. simpl.
  rewrite H2, H3, H4, H5, map_app. done.
Qed.

Lemma scan_body_dry Split Execute fs args l l' r :
  Main.DryRun args = false -> dry_of l l' ->
  dry_of (scan_body Split Execute fs args l r)
         (scan_body Split Execute fs (dry_run args) l' r).
Proof.
  intros Hdry Hl. unfold scan_body.
  change (Main.Sep (dry_run args)) with (Main.Sep args).
  change (Main.Nlines (dry_run args)) with (Main.Nlines args).
  destruct Hl as (H1 & H2 & H3 & H4 & H5).
  destruct (Main.Sep args =? "")%string; cbn [lines buf out].
  - rewrite H1.
    destruct (Z.of_nat (length (lines l ++ [r])) >=? Main.Nlines args).
    + by apply emit_dry.
    + done.
  - rewrite H1.
    set (e := emit Execute args (Split (Main.Sep args) r) r
                {| lines := lines l; buf := ""; out := out l |} (lines l)).
    set (e' := emit Execute (dry_run args) (Split (Main.Sep args) r) r
                 {| lines := lines l; buf := ""; out := out l' |} (lines l)).
    assert (He : dry_of e e') by (by apply emit_dry).
    assert (Hlines : lines e' = lines e) by apply He.
    rewrite Hlines.
    destruct (Z.of_nat (length (lines e)) >=? Main.Nlines args); [|done].
    by apply emit_dry.
Qed.

(** X17, [handleCommand] in [genCommands].  With [--dry-run] nothing is
    sent on the channel, and the lines printed are exactly the commands the
    same options without [--dry-run] would send, in the same order, each
    followed by a newline; the two panic on the same options. *)
Theorem dry_run_prints_and_sends_nothing Split Execute fs args records :
  Main.DryRun args = false ->
  match genCommands Split Execute fs args records,
        genCommands Split Execute fs (dry_run args) records with
  | Some o, Some o' =>
      printed o = [] /\ sent o' = [] /\
      printed o' = map (fun c => c +:+ newline) (sent o)
  | None, None => True
  | _, _ => False
  end.
Proof.
  intros Hdry. unfold genCommands.
  change (Main.Sep (dry_run args)) with (Main.Sep args).
  change (Main.Nlines (dry_run args)) with (Main.Nlines args).
  destruct ((Main.Sep args =? "")%string && (Main.Nlines args <? 0)); [done|].
  assert (Hloop : forall l l', dry_of l l' ->
            dry_of (foldl (scan_body Split Execute fs args) l records)
                   (foldl (scan_body Split Execute fs (dry_run args)) l'
                      records)).
  { induction records as [|r rest IH]; intros l l' Hl; simpl; [done|].
    apply IH. by apply scan_body_dry. }
  match goal with |- context [foldl (scan_body _ _ _ args) ?l0 records] =>
    specialize (Hloop l0 l0 ltac:(by repeat split)) end.
  set (l := foldl (scan_body Split Execute fs args) _ records) in *.
  set (l' := foldl (scan_body Split Execute fs (dry_run args)) _ records) in *.
  assert (Hlines : lines l' = lines l) by apply Hloop.
  rewrite Hlines.
  destruct (0 <? length (lines l))%nat.
  - pose proof (emit_dry Execute args (lines l)
                  (Join (lines l) fs) l l' (lines l) Hdry Hloop) as He.
    destruct He as (_ & _ & ? & ? & ?). done.
  - destruct Hloop as (_ & _ & ? & ? & ?). done.
Qed.

Lemma dry_run_prints_and_sends_nothing_witness :
  match genCommands Cases.whole Cases.the_line " " (Cases.nline_args 2)
          ["a"; "b"; "c"]%string,
        genCommands Cases.whole Cases.the_line " "
          (dry_run (Cases.nline_args 2)) ["a"; "b"; "c"]%string with
  | Some o, Some o' =>
      printed o = [] /\ sent o' = [] /\
      printed o' = map (fun c => c +:+ newline) (sent o)
  | None, None => True
  | _, _ => False
  end.
Proof.
  apply (dry_run_prints_and_sends_nothing Cases.whole Cases.the_line " "
           (Cases.nline_args 2)).
  reflexivity.
Defined.

(** ** Records for any separator *)

Lemma has_prefix_take p : forall d,
  Main.has_prefix p d = true -> take (length p) d = p.
Proof.
  induction p as [|x p IH]; intros [|y d]; simpl; try done.
  intros [Hxy H]%andb_prop. apply Byte.byte_dec_bl in Hxy. subst.
  f_equal. by apply IH.
Qed.

Lemma Index_found sep : forall d,
  0 <= Main.Index d sep ->
  take (length sep) (drop (Z.to_nat (Main.Index d sep)) d) = sep.
Proof.
  induction d as [|y d IH]; simpl.
  - destruct (Main.has_prefix sep []) eqn:E; [|lia].
    intros _. by apply has_prefix_take in E.
  - destruct (Main.has_prefix sep (y :: d)) eqn:E.
    + intros _. by apply has_prefix_take in E.
    + destruct (Main.Index d sep <? 0) eqn:E2; [lia|].
      apply Z.ltb_ge in E2. intros _.
      replace (Z.to_nat (Main.Index d sep + 1))
        with (S (Z.to_nat (Main.Index d sep))) by lia.
      simpl. by apply IH.
Qed.

(** What the scanner is offered by the split function, for any non-empty
    separator: a token is not empty and ends with the separator, unless it
    is all the data left at end of input. *)
Lemma offer_token brs s :
  brs <> [] ->
  let '(advance, token) :=
    if negb (length (Main.data s) =? 0)%nat || Main.atEOF s
    then Main.split brs (Main.data s) (Main.atEOF s)
    else (0, None) in
  0 <= advance <= Z.of_nat (length (Main.data s)) /\
  match token with
  | Some t =>
      0 < advance /\ t <> [] /\
      (brs `suffix_of` t \/
       (Main.atEOF s = true /\ Z.to_nat advance = length (Main.data s)))
  | None => advance = 0
  end.
Proof.
  intros Hne.
  destruct (negb (length (Main.data s) =? 0)%nat || Main.atEOF s) eqn:E;
    [|split; [lia|done]].
  unfold Main.split.
  destruct (Main.atEOF s && (Z.of_nat (length (Main.data s)) =? 0)) eqn:E0;
    [split; [lia|done]|].
  destruct (Main.Index (Main.data s) brs >=? 0) eqn:Ei.
  - assert (Hi : 0 <= Main.Index (Main.data s) brs) by lia.
    pose proof (Index_bounds brs (Main.data s) Hi) as Hb.
    pose proof (Index_found brs (Main.data s) Hi) as Hf.
    assert (0 < length brs)%nat by (destruct brs; [done|simpl; lia]).
    split; [lia|]. split; [lia|].
    set (i := Main.Index (Main.data s) brs) in *.
    replace (Z.to_nat (i + Z.of_nat (length brs)))
      with (Z.to_nat i + length brs)%nat by lia.
    rewrite <- take_take_drop, Hf. split.
    + intros Happ. apply app_eq_nil in Happ as [_ ?]. done.
    + left. by eexists.
  - destruct (Main.atEOF s) eqn:Ee; [|split; [lia|done]].
    simpl in E0. apply Z.eqb_neq in E0.
    split; [lia|]. split; [lia|]. split.
    + intros Hd. rewrite Hd in E0. simpl in E0. lia.
    + right. split; [done|lia].
Qed.

(** A successful scan: the token is not empty, and it ends with the
    separator unless the scanner is left at end of input with nothing to
    read. *)
Lemma Scan_separator brs fuel : forall s t s',
  brs <> [] ->
  (Main.atEOF s = true -> Main.stdin s = []) ->
  Main.Scan fuel brs s = (Some t, s') ->
  t <> [] /\
  (brs `suffix_of` t \/
   (Main.atEOF s' = true /\ Main.data s' = [] /\ Main.stdin s' = [])).
Proof.
  induction fuel as [|fuel IH]; intros s t s' Hne Hwf H; simpl in H; [done|].
  pose proof (offer_token brs s Hne) as Ho.
  destruct (if negb (length (Main.data s) =? 0)%nat || Main.atEOF s
            then Main.split brs (Main.data s) (Main.atEOF s)
            else (0, None)) as [advance token].
  destruct Ho as [Hadv Htok].
  destruct ((advance <? 0) || (advance >? Z.of_nat (length (Main.data s))))
    eqn:Ebad; [done|].
  destruct token as [t0|].
  - destruct Htok as (Hpos & Hnil & Hend). inversion H; subst; clear H.
    split; [done|]. destruct Hend as [?|[He Hall]]; [by left|right].
    simpl. rewrite Hall, drop_all. auto.
  - subst advance. simpl in H.
    destruct (Main.atEOF s) eqn:Ee; [done|].
    destruct (Main.stdin s) as [|c rest] eqn:Es;
      (eapply IH; [done| |exact H]); simpl; done.
Qed.

Lemma Scan_at_end brs fuel s :
  Main.atEOF s = true -> Main.data s = [] ->
  fst (Main.Scan (S fuel) brs s) = None.
Proof.
  intros He Hd. simpl. rewrite He, Hd. simpl. unfold Main.split. simpl.
  done.
Qed.

Lemma Scan_eof brs fuel : forall s r s',
  (Main.atEOF s = true -> Main.stdin s = []) ->
  Main.Scan fuel brs s = (r, s') ->
  (Main.atEOF s' = true -> Main.stdin s' = []).
Proof.
  induction fuel as [|fuel IH]; intros s r s' Hwf H; simpl in H.
  - by inversion H; subst.
  - destruct (if negb (length (Main.data s) =? 0)%nat || Main.atEOF s
              then Main.split brs (Main.data s) (Main.atEOF s)
              else (0, None)) as [advance token].
    destruct ((advance <? 0) || (advance >? Z.of_nat (length (Main.data s)))).
    + by inversion H; subst.
    + destruct token as [t0|].
      * by inversion H; subst.
      * simpl in H. destruct (Main.atEOF s) eqn:Ee.
        -- inversion H; subst. simpl. auto.
        -- destruct (Main.stdin s) as [|c rest] eqn:Es;
             (eapply IH; [|exact H]; simpl; done).
Qed.

Lemma scan_records_separated brs fuel : forall s,
  brs <> [] ->
  (Main.atEOF s = true -> Main.stdin s = []) ->
  separated brs (Main.scan_records fuel brs s).
Proof.
  induction fuel as [|fuel IH]; intros s Hne Hwf; simpl; [done|].
  destruct (Main.Scan (length (Main.stdin s) + 2) brs s) as [[t|] s'] eqn:E;
    [|done].
  pose proof (Scan_eof brs _ s _ s' Hwf E) as Hwf'.
  destruct (Scan_separator brs _ s t s' Hne Hwf E) as [Hnil Hend].
  simpl. split; [done|]. split; [|by apply IH].
  destruct Hend as [Hsuf|(He & Hd & Hs)].
  - by destruct (Main.scan_records fuel brs s').
  - destruct fuel as [|fuel]; [done|]. cbn [Main.scan_records].
    rewrite Hs. change (length [] + 2)%nat with 2%nat.
    pose proof (Scan_at_end brs 1 s' He Hd) as Hend.
    by destruct (Main.Scan 2 brs s') as [[t'|] s''].
Qed.

(** X18, [getScanner].  For every non-empty separator [RS], one byte or
    more, and every way the input arrives: no record is empty, and every
    record but the last ends with the separator. *)
Theorem records_end_with_separator rs input :
  rs <> ""%string ->
  separated (list_byte_of_string rs) (Main.records rs input).
Proof.
  intros Hrs. unfold Main.records. apply scan_records_separated; [|done].
  destruct rs; [done|]. simpl. done.
Qed.

Lemma records_end_with_separator_witness :
  separated (list_byte_of_string "--")
    (Main.records "--" [list_byte_of_string "a--b"]).
Proof. apply records_end_with_separator. discriminate. Defined.

Lemma has_prefix_one_byte b y d :
  Main.has_prefix [b] (y :: d) = Byte.eqb b y.
Proof. simpl. apply andb_true_r. Qed.

Lemma Index_one_byte_none b : forall d, Main.Index d [b] < 0 -> b ∉ d.
Proof.
  induction d as [|y d IH]; [intros _; apply not_elem_of_nil|].
  cbn [Main.Index]. rewrite has_prefix_one_byte.
  destruct (Byte.eqb b y) eqn:E; [lia|].
  destruct (Main.Index d [b] <? 0) eqn:E2; [|apply Z.ltb_ge in E2; lia].
  apply Z.ltb_lt in E2. intros _ [->|Hin]%elem_of_cons.
  - rewrite (Byte.byte_dec_lb eq_refl) in E. done.
  - by apply IH.
Qed.

Lemma Index_one_byte_first b : forall d,
  0 <= Main.Index d [b] -> b ∉ take (Z.to_nat (Main.Index d [b])) d.
Proof.
  induction d as [|y d IH]; [intros _; apply not_elem_of_nil|].
  cbn [Main.Index]. rewrite has_prefix_one_byte.
  destruct (Byte.eqb b y) eqn:E; [intros _; apply not_elem_of_nil|].
  destruct (Main.Index d [b] <? 0) eqn:E2; [lia|].
  apply Z.ltb_ge in E2. intros _.
  replace (Z.to_nat (Main.Index d [b] + 1))
    with (S (Z.to_nat (Main.Index d [b]))) by lia.
  simpl. intros [->|Hin]%elem_of_cons.
  - rewrite (Byte.byte_dec_lb eq_refl) in E. done.
  - by apply IH.
Qed.

Lemma removelast_take {A} (l : list A) n :
  (S n <= length l)%nat -> removelast (take (S n) l) = take n l.
Proof. intros Hl. apply removelast_firstn. lia. Qed.

Lemma elem_of_removelast {A} (x : A) l : x ∈ removelast l -> x ∈ l.
Proof.
  induction l as [|y l IH]; [done|]. simpl. destruct l as [|z l].
  - intros H. by apply elem_of_nil in H.
  - intros [->|H]%elem_of_cons; [left|right; by apply IH].
Qed.

Lemma split_one_byte_first b data eof advance t :
  Main.split [b] data eof = (advance, Some t) -> b ∉ removelast t.
Proof.
  unfold Main.split.
  destruct (eof && (Z.of_nat (length data) =? 0)); [done|].
  destruct (Main.Index data [b] >=? 0) eqn:Ei.
  - assert (Hi : 0 <= Main.Index data [b]) by lia.
    pose proof (Index_bounds [b] data Hi) as Hb. simpl in Hb.
    intros [= _ <-].
    replace (Z.to_nat (Main.Index data [b] + Z.of_nat 1))
      with (S (Z.to_nat (Main.Index data [b]))) by lia.
    rewrite removelast_take by lia. by apply Index_one_byte_first.
  - destruct eof; [|done]. intros [= _ <-] Hin%elem_of_removelast.
    revert Hin. apply Index_one_byte_none. lia.
Qed.

Lemma Scan_one_byte_first b fuel : forall s t s',
  Main.Scan fuel [b] s = (Some t, s') -> b ∉ removelast t.
Proof.
  induction fuel as [|fuel IH]; intros s t s' H; simpl in H; [done|].
  destruct (if negb (length (Main.data s) =? 0)%nat || Main.atEOF s
            then Main.split [b] (Main.data s) (Main.atEOF s)
            else (0, None)) as [advance token] eqn:Eo.
  destruct ((advance <? 0) || (advance >? Z.of_nat (length (Main.data s))));
    [done|].
  destruct token as [t0|].
  - inversion H; subst; clear H.
    destruct (negb (length (Main.data s) =? 0)%nat || Main.atEOF s);
      [|done].
    by eapply split_one_byte_first.
  - simpl in H. destruct (Main.atEOF s); [done|].
    destruct (Main.stdin s); by eapply IH.
Qed.

Lemma scan_records_cut_at b fuel : forall s,
  cut_at b (Main.scan_records fuel [b] s).
Proof.
  induction fuel as [|fuel IH]; intros s; simpl; [constructor|].
  destruct (Main.Scan (length (Main.stdin s) + 2) [b] s) as [[t|] s'] eqn:E;
    [|constructor].
  constructor; [by eapply Scan_one_byte_first|apply IH].
Qed.

(** X19, [getScanner].  With a one-byte separator the scanner cuts the
    input at each separator: the records put together are the input, every
    record but the last ends with the separator, and the separator is
    nowhere else in a record. *)
Theorem one_byte_separator_cuts_at_each_separator rs b input :
  list_byte_of_string rs = [b] ->
  let rcs := Main.records rs input in
  concat rcs = concat input /\
  separated [b] rcs /\
  cut_at b rcs.
Proof.
  intros Hrs rcs. split; [by eapply one_byte_separator_keeps_input|].
  split.
  - unfold rcs, Main.records. rewrite Hrs.
    apply scan_records_separated; done.
  - unfold rcs, Main.records. rewrite Hrs. apply scan_records_cut_at.
Qed.

Lemma one_byte_separator_cuts_at_each_separator_witness :
  let input := [list_byte_of_string "a;b"; list_byte_of_string "c;;d"] in
  concat (Main.records ";" input) = concat input /\
  cut_at x3b (Main.records ";" input).
Proof.
  intros input.
  destruct (one_byte_separator_cuts_at_each_separator ";" x3b input)
    as (H1 & _ & H3).
  - reflexivity.
  - split; [exact H1|exact H3].
Defined.

(** ** Progress of the ordered pool *)

Import Progress.

Lemma served_init P commands : served (oRunner P commands).
Proof.
  split; simpl; [set_solver|].
  intros Hin%list_elem_of_In%repeat_spec. done.
Qed.

Lemma elem_of_middle {A} (x y : A) l1 l2 :
  x ∈ l1 ++ y :: l2 <-> x = y \/ x ∈ l1 ++ l2.
Proof. rewrite !elem_of_app, elem_of_cons. tauto. Qed.

Lemma served_step P waiting exec commands s s' :
  oinv P waiting exec commands s -> served s -> ostep P waiting exec s s' ->
  served s'.
Proof.
  intros Hinv [Hsub Hret] Hstep.
  destruct Hstep; unfold served, active in *; simpl in *.
  - split; [done|]. intros Hr. destruct (Hret Hr); done.
  - split; [|intros Hr; destruct (Hret Hr); done].
    rewrite tickets_app. set_solver.
  - split; [|intros Hr; destruct (Hret Hr); done]. set_solver.
  - split.
    + rewrite omap_app in *. simpl in *. set_solver.
    + intros Hr%elem_of_middle. destruct Hr as [|Hr]; [done|].
      destruct Hret; [|done..]. apply elem_of_middle. by right.
  - split; [done|]. by left.
  - split; [done|]. by right.
  - split.
    + rewrite omap_app in *. simpl in *. done.
    + intros Hr%elem_of_middle. destruct Hr as [|Hr]; [done|].
      apply Hret. apply elem_of_middle. by right.
  - destruct Hinv as (_ & Hws & Hnd & Hact & _ & _ & _ & _ & rel & _ & Hseq
                      & _).
    simpl in *.
    assert (Hw : worker_ok exec commands (OSending x r)).
    { rewrite Forall_app, Forall_cons in Hws. tauto. }
    destruct Hw as [[Hch _] _].
    assert (k = i x) as -> by congruence.
    assert (Hk : i x ∉ q).
    { injection Hseq as Hrel Hq. rewrite Hq. intros Hin%elem_of_seq. lia. }
    split.
    + rewrite omap_app in *. simpl in *.
      intros y Hy. assert (y <> i x) by (intros ->; done).
      assert (Hy' : y ∈ i x :: q) by set_solver.
      apply Hsub in Hy'. set_solver.
    + intros Hr%elem_of_middle. destruct Hr as [|Hr]; [done|].
      apply Hret. apply elem_of_middle. by right.
  - split.
    + rewrite omap_app in *. simpl in *. done.
    + done.
  - split; [done|done].
  - split; [|done]. set_solver.
  - split; [|done]. set_solver.
  - split; [|done]. set_solver.
  - done.
  - done.
Qed.

Lemma served_reachable P waiting exec commands s :
  rtc (ostep P waiting exec) (oRunner P commands) s ->
  oinv P waiting exec commands s /\ served s.
Proof.
  intros H.
  eapply (rtc_ind_r (fun s => oinv P waiting exec commands s /\ served s));
    [| |exact H].
  - split; [apply oinv_init|apply served_init].
  - intros y z _ Hstep [IH1 IH2]. split.
    + eapply oinv_step; eauto.
    + eapply served_step; eauto.
Qed.

Lemma middle_neq {A} (l1 l2 : list A) a b :
  a <> b -> l1 ++ a :: l2 <> l1 ++ b :: l2.
Proof. intros Hab Heq. apply app_inv_head in Heq. congruence. Qed.

Lemma snoc_neq {A} (l : list A) a : l ++ [a] <> l.
Proof.
  intros Heq. apply (f_equal length) in Heq. rewrite length_app in Heq.
  simpl in Heq. lia.
Qed.

Lemma cons_neq {A} (l : list A) a : l <> a :: l.
Proof. intros Heq. apply (f_equal length) in Heq. simpl in Heq. lia. Qed.

(** The workers of a pool: one can receive, one is inside [Run], one is
    sending its result, or all are back from their loops. *)
Lemma workers_cases (ws : list OWorker) :
  (exists ws1 ws2, ws = ws1 ++ OReceiving :: ws2) \/
  (exists ws1 x ws2, ws = ws1 ++ ORunning x :: ws2) \/
  (exists ws1 x r ws2, ws = ws1 ++ OSending x r :: ws2) \/
  Forall (fun w => w = OReturned) ws.
Proof.
  induction ws as [|w ws IH]; [right; right; right; constructor|].
  destruct w as [|x|x r|].
  - left. by exists [], ws.
  - right; left. by exists [], x, ws.
  - right; right; left. by exists [], x, r, ws.
  - destruct IH as
      [(ws1 & ws2 & ->)|[(ws1 & y & ws2 & ->)|[(ws1 & y & r & ws2 & ->)|Hall]]].
    + left. by exists (OReturned :: ws1), ws2.
    + right; left. by exists (OReturned :: ws1), y, ws2.
    + right; right; left. by exists (OReturned :: ws1), y, r, ws2.
    + right; right; right. by constructor.
Qed.

Lemma ticket_of_elem k ws :
  k ∈ omap ticket_of ws ->
  (exists ws1 x ws2, ws = ws1 ++ ORunning x :: ws2) \/
  (exists ws1 x r ws2, ws = ws1 ++ OSending x r :: ws2 /\ i x = k).
Proof.
  intros (w & Hw & Ht)%list_elem_of_omap.
  apply list_elem_of_split in Hw as (ws1 & ws2 & ->).
  destruct w as [|x|x r|]; simpl in Ht; try done.
  - left. by exists ws1, x, ws2.
  - right. exists ws1, x, r, ws2. split; [done|congruence].
Qed.

(** X20, [oRunner], [oRun] and [enumerate].  With at least one worker an
    ordered run never gets stuck, cancelled or not: in every reachable
    state either all the goroutines have returned with nothing left in a
    channel, or some goroutine of the pool can take a step or the caller
    can receive a result. *)
Theorem ordered_pool_never_deadlocks P waiting exec commands s :
  (0 < P)%nat ->
  rtc (ostep P waiting exec) (oRunner P commands) s ->
  settled s \/ moves P waiting exec s.
Proof.
  intros HP [Hinv [Hsv Hret]]%served_reachable.
  destruct s as [cs e q ws d so cn rc]. unfold settled, moves. simpl in *.
  destruct Hinv as (He & Hws & Hnd & Hact & Hcl & Hlen & _ & _ & rel & Hrel
                    & Hseq & _).
  destruct so as [|r so].
  2:{ right. eexists. split; [apply o_receive|]. split; [done|].
      intros [= Heq]. by apply cons_neq in Heq. }
  assert (Hrun : forall ws1 x ws2, ws = ws1 ++ ORunning x :: ws2 ->
            exists s', ostep P waiting exec (OS cs e q ws d [] cn rc) s' /\
                       os_cancel s' = cn /\ s' <> OS cs e q ws d [] cn rc).
  { intros ws1 x ws2 ->. eexists. split; [apply o_run|]. split; [done|].
    intros [= Heq]. by apply middle_neq in Heq. }
  destruct d as [|k|r|].
  - (* the drain is receiving from istdout *)
    right. destruct q as [|k q].
    + destruct e as [n|n c k|x| |].
      * destruct cs as [|c cs]; eexists;
          (split; [constructor|]; split; [done|]; intros [=]).
      * eexists. split; [apply o_handoff|]. split; [done|]. intros [=].
      * unfold active in Hact. simpl in Hact.
        assert (Hx : i x ∈ @nil nat) by (apply Hact; left).
        by apply elem_of_nil in Hx.
      * eexists. split; [apply o_close_istdout|]. split; [done|]. intros [=].
      * eexists. split; [apply o_close_stdout|]. split; [done|]. intros [=].
    + eexists. split; [apply o_next|]. split; [done|]. intros [=].
  - (* the drain waits for the result of command k *)
    right. simpl in *.
    assert (Hk : k ∈ active e ws) by (apply Hsv; left).
    unfold active in Hk. apply elem_of_app in Hk as [Hk|Hk].
    + destruct e as [n|n c k'|x| |]; try by apply elem_of_nil in Hk.
      apply list_elem_of_singleton in Hk. subst k.
      destruct (workers_cases ws) as
        [(ws1 & ws2 & ->)|[(ws1 & y & ws2 & ->)|
          [(ws1 & y & r & ws2 & ->)|Hall]]].
      * eexists. split; [apply o_dispatch|]. split; [done|]. intros [=].
      * by eapply Hrun.
      * unfold active in Hnd, Hact. simpl in Hnd, Hact, Hrel.
        rewrite omap_app in Hnd, Hact. simpl in Hnd, Hact.
        assert (Hy : i y ∈ i x :: q).
        { apply Hact. right. apply elem_of_app. right. left. }
        apply NoDup_cons in Hnd as [Hni _].
        injection Hseq as Hx Hq. rewrite Hq in Hy.
        apply elem_of_cons in Hy as [Hy|Hy].
        -- exfalso. apply Hni. rewrite <- Hy. apply elem_of_app. right. left.
        -- apply elem_of_seq in Hy. lia.
      * destruct ws as [|w ws]; [simpl in Hlen; lia|].
        apply Forall_cons in Hall as [-> _].
        destruct Hret; [left|done..].
    + apply ticket_of_elem in Hk as
        [(ws1 & y & ws2 & ->)|(ws1 & y & r & ws2 & -> & Hy)].
      * by eapply Hrun.
      * assert (Hw : worker_ok exec commands (OSending y r)).
        { rewrite Forall_app, Forall_cons in Hws. tauto. }
        destruct Hw as [[Hch _] _].
        eexists. split; [apply (o_result _ _ _ y r k); congruence|].
        split; [done|]. intros [=].
  - (* the drain is in its select *)
    right. eexists. split; [apply o_forward; unfold stdout_cap; simpl; lia|].
    split; [done|]. intros [=].
  - (* the drain has returned *)
    destruct (Hcl eq_refl) as [-> ->]. simpl in *. subst cs.
    destruct (workers_cases ws) as
      [(ws1 & ws2 & ->)|[(ws1 & y & ws2 & ->)|
        [(ws1 & y & r & ws2 & ->)|Hall]]].
    + right. eexists. split; [apply o_return; by right|]. split; [done|].
      intros [= Heq]. by apply middle_neq in Heq.
    + right. by eapply Hrun.
    + unfold active in Hact. simpl in Hact. rewrite omap_app in Hact.
      assert (Hx : i y ∈ @nil nat).
      { apply Hact. apply elem_of_app. right. left. }
      by apply elem_of_nil in Hx.
    + by left.
Qed.

Lemma ordered_pool_never_deadlocks_witness :
  let s := finished 2 Scenario.quiet ["echo a"; "echo b"]%string in
  settled s \/ moves 2 WaitingMultiplier Scenario.quiet s.
Proof.
  intros s.
  apply (ordered_pool_never_deadlocks 2 WaitingMultiplier Scenario.quiet
           ["echo a"; "echo b"]%string).
  - lia.
  - apply one_by_one_finished. lia.
Defined.

(** ** The unordered pool *)

Import Unordered.

Lemma omap_in_flight_repeat exec n :
  omap (in_flight exec) (repeat UReceiving n) = [].
Proof. induction n; simpl; done. Qed.

Lemma uinv_init P exec commands : uinv exec commands (Runner P commands).
Proof.
  unfold Runner, uinv. rewrite omap_in_flight_repeat. simpl.
  rewrite drop_0. split; [done|]. split.
  - intros Hin%list_elem_of_In%repeat_spec. done.
  - split; [done|]. intros _. split; [done|]. split; [done|done].
Qed.

Lemma in_flight_middle exec ws1 ws2 w :
  omap (in_flight exec) (ws1 ++ w :: ws2) ≡ₚ
  option_list (in_flight exec w) ++ omap (in_flight exec) (ws1 ++ ws2).
Proof.
  rewrite !omap_app. simpl. destruct (in_flight exec w); simpl; [|done].
  symmetry. apply Permutation_middle.
Qed.

Lemma returned_swap (ws1 ws2 : list UWorker) w w' :
  w <> UReturned ->
  UReturned ∈ ws1 ++ w :: ws2 -> UReturned ∈ ws1 ++ w' :: ws2.
Proof.
  rewrite !elem_of_app, !elem_of_cons. intros Hw [?|[?|?]]; auto. congruence.
Qed.

Lemma uinv_step P exec commands s ev s' :
  uinv exec commands s -> ustep P exec s ev s' -> uinv exec commands s'.
Proof.
  intros Hinv Hstep. destruct Hstep; unfold uinv in *;
    destruct Hinv as (He & Hret & Hsub & Hopen); simpl in *.
  - (* u_range *)
    assert (Hc : commands !! n = Some c).
    { rewrite <- (Nat.add_0_r n), <- lookup_drop, <- He. done. }
    split; [|split; [|done]].
    + split; [done|]. rewrite (drop_S _ _ _ Hc) in He. by inversion He.
    + intros Hin. by specialize (Hret Hin).
  - (* u_dispatch *)
    destruct He as [Hc Hcs].
    assert (Hperm : rc ++ so ++ omap (in_flight exec) (ws1 ++ URunning x :: ws2)
                      ++ drop (S (i x)) (expected exec commands) ≡ₚ
                    rc ++ so ++ omap (in_flight exec) (ws1 ++ UReceiving :: ws2)
                      ++ drop (i x) (expected exec commands)).
    { rewrite (drop_S (expected exec commands) _ (i x)
                 (expected_lookup exec _ _ _ Hc)).
      rewrite !in_flight_middle. simpl.
      do 2 apply Permutation_app_head.
      by rewrite <- Permutation_middle. }
    split; [done|]. split.
    + intros Hin. apply (returned_swap _ _ _ UReceiving) in Hin; [|done].
      by specialize (Hret Hin).
    + rewrite Hperm. split; [done|]. intros Hcn.
      destruct (Hopen Hcn) as (? & ? & Hsc). split; [done|]. split; [done|].
      intros Hs. destruct (Hsc Hs) as [? Hall]. split; [done|].
      rewrite Forall_app, Forall_cons in Hall. by destruct Hall as (_ & [=] & _).
  - (* u_close_ch *)
    assert (Hn : drop n (expected exec commands) = []).
    { apply drop_ge. unfold expected. rewrite length_imap.
      apply (f_equal length) in He. rewrite length_drop in He.
      simpl in He. lia. }
    rewrite Hn in *. done.
  - (* u_run *)
    assert (Hperm : omap (in_flight exec)
                      (ws1 ++ USelecting (exec (cmd x) (i x)) :: ws2) =
                    omap (in_flight exec) (ws1 ++ URunning x :: ws2)).
    { by rewrite !omap_app. }
    rewrite Hperm. split; [done|]. split.
    + intros Hin. apply Hret. revert Hin. by apply returned_swap.
    + split; [done|]. intros Hcn.
      destruct (Hopen Hcn) as (? & ? & Hsc). split; [done|]. split; [done|].
      intros Hs. destruct (Hsc Hs) as [? Hall]. split; [done|].
      rewrite Forall_app, Forall_cons in Hall. by destruct Hall as (_ & [=] & _).
  - (* u_send *)
    assert (Hperm : rc ++ (so ++ [r]) ++
                      omap (in_flight exec) (ws1 ++ UReceiving :: ws2) ++ todo exec commands e ≡ₚ
                    rc ++ so ++ omap (in_flight exec) (ws1 ++ USelecting r :: ws2)
                      ++ todo exec commands e).
    { rewrite !in_flight_middle. simpl. apply Permutation_app_head.
      rewrite <- app_assoc. apply Permutation_app_head. simpl. done. }
    rewrite Hperm. split; [done|]. split.
    + intros Hin. apply Hret. revert Hin. by apply returned_swap.
    + split; [done|]. intros Hcn.
      destruct (Hopen Hcn) as (? & ? & Hsc). split; [done|]. split; [done|].
      done.
  - (* u_send_closed *)
    split; [done|]. split; [done|]. split; [done|]. intros Hcn.
    destruct (Hopen Hcn) as (? & ? & Hsc).
    destruct (Hsc eq_refl) as [? Hall].
    rewrite Forall_app, Forall_cons in Hall. by destruct Hall as (_ & [=] & _).
  - (* u_cancelled *)
    split; [done|]. split.
    + intros Hin. apply Hret. revert Hin. by apply returned_swap.
    + split; [|done]. etrans; [|exact Hsub].
      rewrite !in_flight_middle. simpl.
      do 2 (apply submseteq_app; [done|]). by apply submseteq_cons.
  - (* u_cancelled_closed *)
    done.
  - (* u_return *)
    assert (Hperm : omap (in_flight exec) (ws1 ++ UReturned :: ws2) =
                    omap (in_flight exec) (ws1 ++ UReceiving :: ws2)).
    { by rewrite !omap_app. }
    rewrite Hperm. split; [done|]. split; [done|]. split; [done|].
    intros Hcn.
    destruct (Hopen Hcn) as (? & ? & Hsc). split; [done|]. split; [done|].
    intros Hs. destruct (Hsc Hs) as [? Hall]. split; [done|].
    rewrite Forall_app, Forall_cons in Hall. by destruct Hall as (_ & [=] & _).
  - (* u_wait_close *)
    split; [done|]. split; [done|]. split; [done|]. intros Hcn.
    destruct (Hopen Hcn) as (? & ? & Hsc). done.
  - (* u_wait_close_closed *)
    split; [done|]. split; [done|]. split; [done|]. intros Hcn.
    destruct (Hopen Hcn) as (? & ? & Hsc). by destruct (Hsc eq_refl).
  - (* u_receive *)
    assert (Hperm : (rc ++ [r]) ++ so ++
                      omap (in_flight exec) ws ++ todo exec commands e =
                    rc ++ (r :: so) ++ omap (in_flight exec) ws
                      ++ todo exec commands e).
    { by rewrite <- app_assoc. }
    rewrite Hperm. done.
  - (* u_cancel *)
    done.
Qed.

Lemma uinv_run P exec commands s evs s' :
  urun P exec s evs s' -> uinv exec commands s -> uinv exec commands s'.
Proof.
  induction 1 as [|s1 ev s2 evs s3 Hstep _ IH]; [done|].
  intros Hinv. apply IH. eapply uinv_step; eauto.
Qed.

Lemma ustep_cancel P exec s ev s' :
  ustep P exec s ev s' -> ev <> CancelFired -> us_cancel s' = us_cancel s.
Proof. by destruct 1. Qed.

Lemma urun_cancel P exec s evs s' :
  urun P exec s evs s' -> CancelFired ∉ evs -> us_cancel s' = us_cancel s.
Proof.
  induction 1 as [|s1 ev s2 evs s3 Hstep _ IH]; [done|].
  intros Hnot. rewrite IH.
  - eapply ustep_cancel; [done|]. intros ->. apply Hnot. left.
  - intros Hin. apply Hnot. by right.
Qed.

Lemma ustep_panic P exec s ev s' :
  ustep P exec s ev s' -> ev = Panicked -> us_panicked s' = true.
Proof. by destruct 1. Qed.

Lemma ustep_not_panicked P exec s ev s' :
  ustep P exec s ev s' -> us_panicked s = false.
Proof. by destruct 1. Qed.

(** A panic ends the run: nothing steps after it. *)
Lemma urun_panic P exec s evs s' :
  urun P exec s evs s' -> us_panicked s' = false -> Panicked ∉ evs.
Proof.
  induction 1 as [|s1 ev s2 evs s3 Hstep Hrun IH]; intros Hpk.
  - apply not_elem_of_nil.
  - intros [Heq|Hin]%elem_of_cons; [|by apply IH].
    pose proof (ustep_panic _ _ _ _ _ Hstep (eq_sym Heq)) as Hp.
    destruct Hrun as [|? ? ? ? ? Hstep2 _]; [congruence|].
    apply ustep_not_panicked in Hstep2. congruence.
Qed.

Lemma urun_app P exec s1 evs1 s2 evs2 s3 :
  urun P exec s1 evs1 s2 -> urun P exec s2 evs2 s3 ->
  urun P exec s1 (evs1 ++ evs2) s3.
Proof.
  induction 1 as [|? ? ? ? ? Hstep _ IH]; [done|].
  intros H2. simpl. econstructor; [exact Hstep|by apply IH].
Qed.

Lemma urun_workers P exec s evs s' :
  urun P exec s evs s' -> length (us_workers s') = length (us_workers s).
Proof.
  induction 1 as [|s1 ev s2 evs s3 Hstep _ IH]; [done|].
  rewrite IH. destruct Hstep; simpl; rewrite ?length_app; done.
Qed.

Lemma calm_refl P exec s : calm P exec s s.
Proof. exists []. split; [constructor|apply not_elem_of_nil]. Qed.

Lemma calm_step P exec s1 ev s2 s3 :
  ustep P exec s1 ev s2 -> ev <> CancelFired -> calm P exec s2 s3 ->
  calm P exec s1 s3.
Proof.
  intros Hstep Hev (evs & Hrun & Hnot). exists (ev :: evs).
  split; [by econstructor|]. intros [?|?]%elem_of_cons; done.
Qed.

Lemma calm_trans P exec s1 s2 s3 :
  calm P exec s1 s2 -> calm P exec s2 s3 -> calm P exec s1 s3.
Proof.
  intros (evs1 & H1 & N1) (evs2 & H2 & N2). exists (evs1 ++ evs2).
  split; [by eapply urun_app|]. intros [?|?]%elem_of_app; done.
Qed.

Lemma unordered_one_by_one_step P exec commands k c :
  (0 < P)%nat -> commands !! k = Some c ->
  calm P exec (ubetween P exec commands k) (ubetween P exec commands (S k)).
Proof.
  intros HP Hc. unfold ubetween. destruct P as [|p]; [lia|]. simpl repeat.
  rewrite (drop_S _ _ _ Hc).
  rewrite (take_S_r _ _ _ (expected_lookup exec _ _ _ Hc)).
  eapply calm_step; [apply u_range|done|].
  eapply calm_step; [apply (u_dispatch _ _ _ _ [])|done|]. simpl.
  eapply calm_step; [apply (u_run _ _ _ _ _ [])|done|]. simpl.
  eapply calm_step;
    [apply (u_send _ _ _ _ _ []); unfold stdout_cap; simpl; lia|done|].
  simpl.
  eapply calm_step; [apply u_receive|done|].
  apply calm_refl.
Qed.

Lemma unordered_one_by_one P exec commands k :
  (0 < P)%nat -> (k <= length commands)%nat ->
  calm P exec (Runner P commands) (ubetween P exec commands k).
Proof.
  intros HP. induction k as [|k IH]; intros Hk.
  - apply calm_refl.
  - destruct (lookup_lt_is_Some_2 commands k ltac:(lia)) as [c Hc].
    eapply calm_trans; [apply IH; lia|].
    by eapply unordered_one_by_one_step.
Qed.

Lemma workers_return P exec rc m : forall j,
  calm P exec
    (US [] Finished (repeat UReturned j ++ repeat UReceiving m)
        false [] false false rc false)
    (US [] Finished (repeat UReturned (j + m)) false [] false false rc false).
Proof.
  induction m as [|m IH]; intros j.
  - rewrite Nat.add_0_r, app_nil_r. apply calm_refl.
  - simpl repeat. eapply calm_step; [apply u_return|done|].
    replace (repeat UReturned j ++ UReturned :: repeat UReceiving m)
      with (repeat UReturned (S j) ++ repeat UReceiving m).
    + replace (j + S m)%nat with (S j + m)%nat by lia. apply IH.
    + change (repeat UReturned (S j)) with (UReturned :: repeat UReturned j).
      rewrite repeat_cons. by rewrite <- app_assoc.
Qed.

Lemma unordered_one_by_one_finished P exec commands :
  (0 < P)%nat ->
  calm P exec (Runner P commands) (ufinished P exec commands).
Proof.
  intros HP.
  eapply calm_trans;
    [apply (unordered_one_by_one P exec commands (length commands));
       [done|lia]|].
  unfold ubetween, ufinished. rewrite drop_all.
  rewrite take_ge by (unfold expected; rewrite length_imap; lia).
  eapply calm_step; [apply u_close_ch|done|].
  eapply calm_trans; [apply (workers_return P exec _ P 0%nat)|].
  simpl. eapply calm_step; [apply u_wait_close|done|apply calm_refl].
  apply Forall_forall. intros w Hw%list_elem_of_In%repeat_spec. done.
Qed.

(** X21, [Runner] in unordered mode.  In every run, what the caller has
    received and what waits in [stdout] are results of distinct commands.
    If [cancel] is never closed, nothing panics, and once [stdout] is
    closed (with at least one worker) they are the results of all the
    commands, each once, in some order.  With at least one worker such a
    run exists. *)
Theorem unordered_pool_delivers_each_result_once P exec commands evs s :
  urun P exec (Runner P commands) evs s ->
  us_received s ++ us_stdout s ⊆+ expected exec commands /\
  ((CancelFired ∉ evs) ->
   (Panicked ∉ evs) /\ us_panicked s = false /\
   ((0 < P)%nat -> us_closed s = true ->
    us_received s ++ us_stdout s ≡ₚ expected exec commands)) /\
  ((0 < P)%nat ->
   exists evs' s',
     urun P exec (Runner P commands) evs' s' /\ (CancelFired ∉ evs') /\
     us_closed s' = true /\ us_stdout s' = [] /\
     us_received s' = expected exec commands).
Proof.
  intros Hrun.
  pose proof (uinv_run _ _ commands _ _ _ Hrun (uinv_init _ _ _)) as Hinv.
  pose proof (urun_workers _ _ _ _ _ Hrun) as Hlen.
  split; [|split].
  - destruct s as [cs e ws cl so sc cn rc pk]. simpl.
    destruct Hinv as (_ & _ & Hsub & _).
    etrans; [|exact Hsub]. rewrite !app_assoc.
    do 2 apply submseteq_inserts_r. done.
  - intros Hnot. pose proof (urun_cancel _ _ _ _ _ Hrun Hnot) as Hcn.
    destruct s as [cs e ws cl so sc cn rc pk]. simpl in *. subst cn.
    rewrite repeat_length in Hlen.
    destruct Hinv as (_ & Hret & _ & Hopen).
    destruct (Hopen eq_refl) as (Hperm & -> & Hsc).
    split; [by eapply urun_panic|]. split; [done|].
    intros HP ->. destruct (Hsc eq_refl) as [_ Hall].
    assert (Hfl : omap (in_flight exec) ws = []).
    { clear -Hall. induction Hall as [|w ws -> _ IH]; [done|]. done. }
    assert (He : todo exec commands e = []).
    { destruct ws as [|w ws]; [simpl in Hlen; lia|].
      apply Forall_cons in Hall as [-> _]. rewrite Hret; [done|left]. }
    rewrite Hfl, He in Hperm. simpl in Hperm. by rewrite app_nil_r in Hperm.
  - intros HP.
    destruct (unordered_one_by_one_finished P exec commands HP)
      as (evs' & Hrun' & Hnot').
    exists evs', (ufinished P exec commands). done.
Qed.

Lemma unordered_pool_delivers_each_result_once_witness :
  let commands := ["echo a"; "echo b"]%string in
  let s := ufinished 2 Scenario.quiet commands in
  us_received s ++ us_stdout s ≡ₚ expected Scenario.quiet commands.
Proof.
  intros commands s.
  destruct (unordered_one_by_one_finished 2 Scenario.quiet commands)
    as (evs & Hrun & Hnot); [lia|].
  destruct (unordered_pool_delivers_each_result_once 2 Scenario.quiet
              commands evs _ Hrun) as (_ & Hopen & _).
  destruct (Hopen Hnot) as (_ & _ & Hall).
  assert (H2 : (0 < 2)%nat) by lia.
  exact (Hall H2 eq_refl).
Defined.

Lemma uworkers_cases (ws : list UWorker) :
  (exists ws1 ws2, ws = ws1 ++ UReceiving :: ws2) \/
  (exists ws1 x ws2, ws = ws1 ++ URunning x :: ws2) \/
  (exists ws1 r ws2, ws = ws1 ++ USelecting r :: ws2) \/
  Forall (fun w => w = UReturned) ws.
Proof.
  induction ws as [|w ws IH]; [right; right; right; constructor|].
  destruct w as [|x|r|].
  - left. by exists [], ws.
  - right; left. by exists [], x, ws.
  - right; right; left. by exists [], r, ws.
  - destruct IH as
      [(ws1 & ws2 & ->)|[(ws1 & y & ws2 & ->)|[(ws1 & r & ws2 & ->)|Hall]]].
    + left. by exists (UReturned :: ws1), ws2.
    + right; left. by exists (UReturned :: ws1), y, ws2.
    + right; right; left. by exists (UReturned :: ws1), r, ws2.
    + right; right; right. by constructor.
Qed.

(** Only the goroutine that waits for the workers sets [us_closer], and it
    closes [stdout] in the same step. *)
Lemma urun_closer P exec s evs s' :
  urun P exec s evs s' ->
  (us_closer s = true -> us_closed s = true) ->
  us_closer s' = true -> us_closed s' = true.
Proof.
  induction 1 as [|s1 ev s2 evs s3 Hstep _ IH]; [done|].
  intros Hcl. apply IH. destruct Hstep; simpl in *; done.
Qed.

(** X22, [Runner] in unordered mode.  With at least one worker and
    [cancel] open, an unordered run never gets stuck and never has to
    panic: either all the goroutines have returned and [stdout] is closed
    and empty, or a step other than a panic can be taken. *)
Theorem unordered_pool_never_deadlocks P exec commands evs s :
  (0 < P)%nat ->
  urun P exec (Runner P commands) evs s ->
  us_cancel s = false ->
  usettled s \/
  exists ev s', ustep P exec s ev s' /\ ev <> CancelFired /\ ev <> Panicked.
Proof.
  intros HP Hrun Hcn.
  pose proof (uinv_run _ _ commands _ _ _ Hrun (uinv_init _ _ _)) as Hinv.
  pose proof (urun_workers _ _ _ _ _ Hrun) as Hlen.
  pose proof (urun_closer _ _ _ _ _ Hrun) as Hcl.
  destruct s as [cs e ws cl so sc cn rc pk]. unfold usettled.
  simpl in *. subst cn. rewrite repeat_length in Hlen.
  destruct Hinv as (He & Hret & _ & Hopen).
  destruct (Hopen eq_refl) as (_ & -> & Hsc).
  destruct so as [|r so].
  2:{ right. do 2 eexists. split; [apply u_receive|done]. }
  destruct (uworkers_cases ws) as
    [(ws1 & ws2 & ->)|[(ws1 & y & ws2 & ->)|[(ws1 & r & ws2 & ->)|Hall]]].
  - right. destruct e as [n|n c k|x| |]; try done.
    + destruct cs as [|c cs]; do 2 eexists; (split; [constructor|done]).
    + do 2 eexists. split; [apply u_dispatch|done].
    + do 2 eexists. split; [apply u_return|done].
  - right. do 2 eexists. split; [apply u_run|done].
  - right. destruct sc.
    + destruct (Hsc eq_refl) as [_ Hall].
      rewrite Forall_app, Forall_cons in Hall. by destruct Hall as (_ & [=] & _).
    + do 2 eexists.
      split; [apply u_send; unfold stdout_cap; simpl; lia|done].
  - assert (e = Finished) as ->.
    { destruct ws as [|w ws]; [simpl in Hlen; lia|].
      apply Forall_cons in Hall as [-> _]. apply Hret. left. }
    simpl in He. subst cs. destruct cl.
    + left. rewrite Hcl; done.
    + right. destruct sc; [by destruct (Hsc eq_refl)|].
      do 2 eexists. split; [by apply u_wait_close|done].
Qed.

Lemma unordered_pool_never_deadlocks_witness :
  let s := Runner 1 ["echo a"]%string in
  usettled s \/
  exists ev s', ustep 1 Scenario.quiet s ev s' /\ ev <> CancelFired /\
                ev <> Panicked.
Proof.
  intros s.
  apply (unordered_pool_never_deadlocks 1 Scenario.quiet ["echo a"]%string
           []).
  - lia.
  - apply urun_nil.
  - reflexivity.
Defined.

